(** * QunTime: the worker pool of [src/Tensor/QunTime.js]

    A shallow embedding of [QunTime.parallel], of the worker script it
    evaluates in every worker thread (with its [maybeUpdateShared] callback
    and its [startingBest] read), and of [QunTime.entangledMode].

    - JavaScript Numbers are IEEE 754 binary64 values: Rocq's primitive
      [float], specified by [Prim2SF] and the operations of [SpecFloat].
    - The [Int32Array] cell over the [SharedArrayBuffer] is a [Z] in the
      signed 32-bit range; every write goes through [ToInt32].
    - Worker threads are interleaved by an explicit schedule; one step holds
      at most one access to the shared cell. [Atomics.load] and
      [Atomics.store] are sequentially consistent, so every execution of
      the workers is such an interleaving. *)

From Stdlib Require Import ZArith NArith List Bool Lia PeanoNat.
From Stdlib Require Import Floats.
From Stdlib Require String Ascii.

Set Warnings "-inexact-float".
Import ListNotations.

Local Open Scope Z_scope.

(* ------------------------------------------------------------------ *)
(** ** Numbers *)

Module Num.

(** A JavaScript Number. *)
Definition Number := float.

(** [Number.MAX_SAFE_INTEGER], 2^53 - 1. *)
Definition MAX_SAFE_INTEGER : Number := 9007199254740991%float.

(** The literal [1e6]. *)
Definition _1e6 : Number := 1000000%float.

(** [Infinity]. *)
Definition Infinity : Number := infinity.

(** The signed mantissa of a finite value. *)
Definition signed (s : bool) (m : positive) : Z :=
  if s then Z.neg m else Z.pos m.

(** The integer nearest to the finite value (-1)^s * m * 2^e in the
    direction of minus infinity. [Z.shiftl] by a negative amount is the
    arithmetic shift to the right, which rounds down. *)
Definition SF_floor (s : bool) (m : positive) (e : Z) : Z :=
  Z.shiftl (signed s m) e.

(** The same value with its fraction dropped (rounded toward zero). *)
Definition SF_trunc (s : bool) (m : positive) (e : Z) : Z :=
  if 0 <=? e then signed s m * 2 ^ e
  else Z.quot (signed s m) (2 ^ (- e)).

(** A Number whose value is integral: what [Math.floor] returns. The sign
    of a zero is dropped: neither [<] nor [ToInt32] can see it. *)
Inductive Integral : Type :=
| INaN
| INegInf
| IPosInf
| IInt (z : Z).

(** [Math.floor(x)]. *)
Definition Math_floor (x : Number) : Integral :=
  match Prim2SF x with
  | S754_nan => INaN
  | S754_infinity s => if s then INegInf else IPosInf
  | S754_zero _ => IInt 0
  | S754_finite s m e => IInt (SF_floor s m e)
  end.

(** [Math.trunc(x)]; the code does not call it, the specification names it. *)
Definition Math_trunc (x : Number) : Integral :=
  match Prim2SF x with
  | S754_nan => INaN
  | S754_infinity s => if s then INegInf else IPosInf
  | S754_zero _ => IInt 0
  | S754_finite s m e => IInt (SF_trunc s m e)
  end.

(** [x < c] for an integral Number [x] and an int32 [c]; false on NaN. *)
Definition Integral_ltb (x : Integral) (c : Z) : bool :=
  match x with
  | INaN => false
  | INegInf => true
  | IPosInf => false
  | IInt z => z <? c
  end.

(** The modular part of ECMAScript's [ToInt32]: an integer reduced
    modulo 2^32 into [-2^31, 2^31). *)
Definition wrap32 (z : Z) : Z := (z + 2 ^ 31) mod 2 ^ 32 - 2 ^ 31.

Definition INT32_MAX : Z := 2 ^ 31 - 1.
Definition INT32_MIN : Z := - 2 ^ 31.

(** [ToInt32] of an integral Number: NaN and the infinities give 0. *)
Definition ToInt32_Integral (x : Integral) : Z :=
  match x with
  | IInt z => wrap32 z
  | _ => 0
  end.

(** [ToInt32] of any Number: the value is truncated, then reduced. *)
Definition ToInt32 (x : Number) : Z := ToInt32_Integral (Math_trunc x).

(** An int32 read from the typed array, as a Number (the conversion is
    exact: 32 bits fit the 53 bits of the mantissa). *)
Definition Number_of_int32 (z : Z) : Number :=
  SF2Prim (binary_normalize prec emax z 0 false).

End Num.
Import Num.

(** The conversions on a few Numbers. *)
Example ToInt32_examples :
  ToInt32 2147483647%float = 2147483647 /\
  ToInt32 2147483648%float = -2147483648 /\
  ToInt32 (-2.7)%float = -2 /\
  ToInt32 nan = 0 /\
  ToInt32 infinity = 0.
Proof. vm_compute. repeat split; reflexivity. Qed.

Example Math_floor_examples :
  Math_floor 2.7%float = IInt 2 /\
  Math_floor (-2.7)%float = IInt (-3) /\
  Math_floor (-0)%float = IInt 0 /\
  Math_floor neg_infinity = INegInf /\
  Math_floor nan = INaN /\
  Math_floor 1e22%float = IInt 10000000000000000000000.
Proof. vm_compute. repeat split; reflexivity. Qed.

Example Number_of_int32_examples :
  Number_of_int32 (-1) = (-1)%float /\
  Number_of_int32 0 = 0%float /\
  Number_of_int32 2147483647 = 2147483647%float /\
  Number_of_int32 (-2147483648) = (-2147483648)%float.
Proof. vm_compute. repeat split; reflexivity. Qed.

(* ------------------------------------------------------------------ *)
(** ** The shared register: [maybeUpdateShared] and [startingBest] *)

Module Register.

(** [const scaled = Math.floor(score * 1e6)]. *)
Definition scale (score : Number) : Integral :=
  Math_floor (score * _1e6)%float.

(** [sharedArray[0] = Number.MAX_SAFE_INTEGER]: an element assignment of an
    [Int32Array] converts the Number with [ToInt32]. *)
Definition initial_cell : Z := ToInt32 MAX_SAFE_INTEGER.

(** [maybeUpdateShared] down to its test, on the value [current] that
    [Atomics.load] returned: [Some scaled] when the branch with
    [Atomics.store] is taken. *)
Definition maybeUpdateShared_load (score : Number) (current : Z)
  : option Integral :=
  let scaled := scale score in
  if Integral_ltb scaled current then Some scaled else None.

(** [Atomics.store(sharedArray, 0, scaled)]: the cell afterwards. *)
Definition Atomics_store (scaled : Integral) : Z := ToInt32_Integral scaled.

(** One call of [maybeUpdateShared(score)] that no other thread interrupts,
    as a function on the cell. *)
Definition maybeUpdateShared (score : Number) (cell : Z) : Z :=
  match maybeUpdateShared_load score cell with
  | Some scaled => Atomics_store scaled
  | None => cell
  end.

(** [sharedArray ? (Atomics.load(sharedArray, 0) / 1e6) : Infinity]. *)
Definition startingBest (sharedArray : option Z) : Number :=
  match sharedArray with
  | Some cell => (Number_of_int32 cell / _1e6)%float
  | None => Infinity
  end.

End Register.
Import Register.

(* ------------------------------------------------------------------ *)
(** ** The pool: [QunTime.parallel] and its workers *)

Section Pool.

(** What a task returns and what it throws: opaque to the pool. *)
Variables Value Err : Type.

Inductive Outcome : Type :=
| Returns (v : Value)
| Throws (e : Err).

(** What one invocation [fn(startingBest, maybeUpdateShared)] does:
    the scores it passes to [maybeUpdateShared], in order, and how it ends.
    [maybeUpdateShared] returns [undefined], so the task learns nothing from
    its calls and the scores depend on [startingBest] alone. *)
Record Behaviour : Type := mkBehaviour {
  publishes : list Number;
  outcome : Outcome
}.

(** The task. Its first argument is the index of the worker that runs it:
    it stands for whatever the task draws from its own execution context
    ([Math.random], the clock), so that two workers may behave differently. *)
Definition Task : Type := nat -> Number -> Behaviour.

(** The control state of one worker thread and of its two listeners. *)
Inductive Worker : Type :=
| Spawned
    (* [new Worker(...)] returned; the script has not run *)
| InTask (sb : Number) (todo : list Number) (res : Outcome)
    (* inside [fn], outside [maybeUpdateShared] *)
| Storing (sb : Number) (scaled : Integral) (todo : list Number) (res : Outcome)
    (* inside [maybeUpdateShared], between [Atomics.load] and [Atomics.store] *)
| Posted (sb : Number) (res : Outcome)
    (* the script ended: a 'message' or an 'error' event waits for the
       main thread *)
| Reported (sb : Number).
    (* the main thread ran the listener *)

(** The promise that [parallel] returns. [resolve(results)] fulfils it with
    the array [results] itself, so a fulfilled promise holds no copy: its
    value is [results] of the state. *)
Inductive Promise : Type :=
| Pending
| Fulfilled
| Rejected (e : Err).

Record Run : Type := mkRun {
  entangled : bool;          (* [QunTime.entangled], the static field *)
  entangledEnabled : bool;   (* [const entangledEnabled] of this run *)
  sharedArray : option Z;    (* the cell of [sharedArray], once allocated *)
  count : nat;
  workers : list Worker;
  completed : nat;
  results : list Value;
  promise : Promise
}.

(** [static entangledMode(enable = true)]. *)
Definition entangledMode (enable : option bool) (st : Run) : Run :=
  mkRun (match enable with Some b => b | None => true end)
        (entangledEnabled st) (sharedArray st) (count st) (workers st)
        (completed st) (results st) (promise st).

(** [static async parallel(fn, count = 4)], called when the static field
    holds [flag]: the executor runs to its end before anything else does.
    [fn] is only shipped to the workers, which call it in [step].
    [count] is a number of workers: a natural number, and [None] when the
    argument is omitted. *)
Definition parallel (flag : bool) (count : option nat) : Run :=
  let count := match count with Some n => n | None => 4%nat end in
  let entangledEnabled := flag in
  let sharedArray := if entangledEnabled then Some initial_cell else None in
  mkRun flag entangledEnabled sharedArray count (repeat Spawned count)
        0%nat [] Pending.

(** The worker's own [sharedArray]:
    [if (entangled && workerData.sharedBuffer)], with
    [workerData = { entangled: entangledEnabled,
                    sharedBuffer: entangledEnabled ? sharedBuffer : null }]. *)
Definition worker_sharedArray (st : Run) : option Z :=
  let workerData_entangled := entangledEnabled st in
  let workerData_sharedBuffer :=
    if entangledEnabled st then sharedArray st else None in
  if workerData_entangled then workerData_sharedBuffer else None.

(** The list of workers with the state of worker [i] replaced. *)
Fixpoint replace_nth (i : nat) (w : Worker) (ws : list Worker) : list Worker :=
  match ws, i with
  | [], _ => []
  | _ :: ws', O => w :: ws'
  | w0 :: ws', S j => w0 :: replace_nth j w ws'
  end.

Definition set_worker (i : nat) (w : Worker) (st : Run) : Run :=
  mkRun (entangled st) (entangledEnabled st) (sharedArray st) (count st)
        (replace_nth i w (workers st))
        (completed st) (results st) (promise st).

Definition set_cell (c : Z) (st : Run) : Run :=
  mkRun (entangled st) (entangledEnabled st) (Some c) (count st)
        (workers st) (completed st) (results st) (promise st).

(** [worker.on('message', result => { results.push(result); completed++;
    if (completed === count) resolve(results); })]. A settled promise
    ignores [resolve]. *)
Definition on_message (result : Value) (st : Run) : Run :=
  let results' := results st ++ [result] in
  let completed' := S (completed st) in
  mkRun (entangled st) (entangledEnabled st) (sharedArray st) (count st)
        (workers st) completed' results'
        (if Nat.eqb completed' (count st)
         then match promise st with Pending => Fulfilled | p => p end
         else promise st).

(** [worker.on('error', reject)]. A settled promise ignores [reject]. *)
Definition on_error (e : Err) (st : Run) : Run :=
  mkRun (entangled st) (entangledEnabled st) (sharedArray st) (count st)
        (workers st) (completed st) (results st)
        (match promise st with Pending => Rejected e | p => p end).

(** One step of worker [i] (or, for a worker whose script ended, of the
    main thread running that worker's listener). A step holds at most one
    access to the shared cell. *)
Definition step_worker (fn : Task) (i : nat) (st : Run) : Run :=
  match nth_error (workers st) i with
  | None => st
  | Some Spawned =>
      let sb := startingBest (worker_sharedArray st) in
      let b := fn i sb in
      set_worker i (InTask sb (publishes b) (outcome b)) st
  | Some (InTask sb (score :: todo) res) =>
      match worker_sharedArray st with
      | None => set_worker i (InTask sb todo res) st
      | Some current =>
          match maybeUpdateShared_load score current with
          | Some scaled => set_worker i (Storing sb scaled todo res) st
          | None => set_worker i (InTask sb todo res) st
          end
      end
  | Some (Storing sb scaled todo res) =>
      set_worker i (InTask sb todo res) (set_cell (Atomics_store scaled) st)
  | Some (InTask sb [] res) => set_worker i (Posted sb res) st
  | Some (Posted sb (Returns v)) => set_worker i (Reported sb) (on_message v st)
  | Some (Posted sb (Throws e)) => set_worker i (Reported sb) (on_error e st)
  | Some (Reported _) => st
  end.

(** What may happen next: a worker (or its listener) takes a step, or the
    main thread calls [QunTime.entangledMode]. *)
Inductive Event : Type :=
| Step (i : nat)
| CallEntangledMode (enable : option bool).

Definition step (fn : Task) (st : Run) (ev : Event) : Run :=
  match ev with
  | Step i => step_worker fn i st
  | CallEntangledMode enable => entangledMode enable st
  end.

(** A run under a schedule. *)
Definition exec (fn : Task) (st : Run) (evs : list Event) : Run :=
  fold_left (step fn) evs st.

Definition is_Reported (w : Worker) : bool :=
  match w with Reported _ => true | _ => false end.

(** Every worker has ended and every listener has run. *)
Definition all_reported (st : Run) : bool := forallb is_Reported (workers st).

(** The [startingBest] a worker was given, once its script has started. *)
Definition startingBest_of (w : Worker) : option Number :=
  match w with
  | Spawned => None
  | InTask sb _ _ | Storing sb _ _ _ | Posted sb _ | Reported sb => Some sb
  end.

(** A run without the static field [QunTime.entangled]: everything the
    run itself owns. *)
Definition run_view (st : Run)
  : bool * option Z * nat * list Worker * nat * list Value * Promise :=
  (entangledEnabled st, sharedArray st, count st, workers st,
   completed st, results st, promise st).

Definition is_Step (ev : Event) : bool :=
  match ev with Step _ => true | CallEntangledMode _ => false end.

(** A schedule without its calls of [QunTime.entangledMode]. *)
Definition steps_only (evs : list Event) : list Event := filter is_Step evs.

(** What the main thread observes at an event: the outcome of the worker
    whose listener it runs, if the event runs one. *)
Definition observed (st : Run) (ev : Event) : list Outcome :=
  match ev with
  | Step i =>
      match nth_error (workers st) i with
      | Some (Posted _ res) => [res]
      | _ => []
      end
  | CallEntangledMode _ => []
  end.

(** The outcomes the main thread observes along a schedule, in order. *)
Fixpoint observations (fn : Task) (st : Run) (evs : list Event)
  : list Outcome :=
  match evs with
  | [] => []
  | ev :: evs' => observed st ev ++ observations fn (step fn st ev) evs'
  end.

(** The values among the observed outcomes, in order. *)
Fixpoint returned (os : list Outcome) : list Value :=
  match os with
  | [] => []
  | Returns v :: os' => v :: returned os'
  | Throws _ :: os' => returned os'
  end.

(** The first failure among the observed outcomes. *)
Fixpoint first_error (os : list Outcome) : option Err :=
  match os with
  | [] => None
  | Throws e :: _ => Some e
  | Returns _ :: os' => first_error os'
  end.

(** The promise of a run of [n] workers after the observations [os]. *)
Definition settled_as (n : nat) (os : list Outcome) : Promise :=
  match first_error os with
  | Some e => Rejected e
  | None => if Nat.eqb (length os) n then Fulfilled else Pending
  end.

(** How many workers have been reported to the main thread. *)
Definition count_reported (ws : list Worker) : nat :=
  length (filter is_Reported ws).

End Pool.

Arguments Returns {Value Err} v.
Arguments Throws {Value Err} e.
Arguments mkBehaviour {Value Err} publishes outcome.
Arguments publishes {Value Err} b.
Arguments outcome {Value Err} b.
Arguments Spawned {Value Err}.
Arguments InTask {Value Err} sb todo res.
Arguments Storing {Value Err} sb scaled todo res.
Arguments Posted {Value Err} sb res.
Arguments Reported {Value Err} sb.
Arguments Pending {Err}.
Arguments Fulfilled {Err}.
Arguments Rejected {Err} e.
Arguments entangled {Value Err} r.
Arguments entangledEnabled {Value Err} r.
Arguments sharedArray {Value Err} r.
Arguments count {Value Err} r.
Arguments workers {Value Err} r.
Arguments completed {Value Err} r.
Arguments results {Value Err} r.
Arguments promise {Value Err} r.
Arguments parallel {Value Err} flag count.
Arguments exec {Value Err} fn st evs.
Arguments step {Value Err} fn st ev.
Arguments step_worker {Value Err} fn i st.
Arguments all_reported {Value Err} st.
Arguments startingBest_of {Value Err} w.
Arguments run_view {Value Err} st.
Arguments observed {Value Err} st ev.
Arguments observations {Value Err} fn st evs.
Arguments returned {Value Err} os.
Arguments first_error {Value Err} os.
Arguments settled_as {Value Err} n os.
Arguments count_reported {Value Err} ws.
Arguments is_Reported {Value Err} w.
Arguments entangledMode {Value Err} enable st.
Arguments worker_sharedArray {Value Err} st.
Arguments replace_nth {Value Err} i w ws.

(* ------------------------------------------------------------------ *)
(** ** Invariants of a run *)

Section Invariants.

Context {Value Err : Type}.
Implicit Types (st : Run Value Err) (w : Worker Value Err).
Implicit Types (os : list (Outcome Value Err)).

Definition not_Storing w : bool :=
  match w with Storing _ _ _ _ => false | _ => true end.

(** The cell exists exactly in the runs launched with the flag set; in the
    other runs no worker ever reaches [Atomics.store]. *)
Definition wired st : Prop :=
  if entangledEnabled st
  then exists c, sharedArray st = Some c
  else sharedArray st = None /\ forallb not_Storing (workers st) = true.

(** The link between the state of a run and what its main thread has
    observed so far. *)
Record coordinated st os : Prop := mkCoordinated {
  co_workers : length (workers st) = count st;
  co_completed : completed st = length (returned os);
  co_results : results st = returned os;
  co_reported : length os = count_reported (workers st);
  co_promise : promise st = settled_as (count st) os
}.

(** Workers whose task can only end by returning [c]. *)
Definition ends_with (c : Value) w : Prop :=
  match w with
  | InTask _ _ res | Storing _ _ _ res | Posted _ res => res = Returns c
  | Spawned | Reported _ => True
  end.

(** A bound on the steps a started worker still takes. *)
Definition rank w : nat :=
  match w with
  | Spawned => 0
  | InTask _ todo _ => 2 * length todo + 2
  | Storing _ _ todo _ => 2 * length todo + 3
  | Posted _ _ => 1
  | Reported _ => 0
  end.

Definition started w : bool :=
  match w with Spawned => false | _ => true end.

(** A score whose product is at least -1. *)
Definition above_m1 (s : Number) : Prop := (-1 <=? s * _1e6)%float = true.

(** A worker that has read -0.000001, publishes only such scores and is
    not about to store. *)
Definition quiet w : Prop :=
  match w with
  | Spawned => True
  | InTask sb todo _ => sb = (-0.000001)%float /\ Forall above_m1 todo
  | Storing _ _ _ _ => False
  | Posted sb _ | Reported sb => sb = (-0.000001)%float
  end.

Definition stuck st : Prop :=
  entangledEnabled st = true /\ sharedArray st = Some (-1) /\
  Forall quiet (workers st).

End Invariants.

(* ------------------------------------------------------------------ *)
(** ** Scenarios *)

(** Two workers; worker 0 calls [maybeUpdateShared(-2)], worker 1 calls
    [maybeUpdateShared(-3)]; each returns its index. *)
Definition two_publishers : Task nat nat :=
  fun i _ =>
    mkBehaviour [if Nat.eqb i 0 then (-2)%float else (-3)%float] (Returns i).

(** Both workers start and load the cell; worker 1 stores, then worker 0
    stores; both end and are reported. *)
Definition racy_schedule : list Event :=
  map Step [0; 1; 0; 1; 1; 0; 0; 1; 0; 1]%nat.

(** Worker 0 runs to its end before worker 1 starts. *)
Definition serial_schedule : list Event :=
  map Step [0; 0; 0; 0; 0; 1; 1; 1; 1; 1]%nat.

(** The task of the specification's example: it calls
    [maybeUpdateShared(21)] and returns 21. *)
Definition constant_21 : Task nat nat :=
  fun _ _ => mkBehaviour [21%float] (Returns 21%nat).

(** Worker 1 throws 7; the other workers return their index. *)
Definition one_fails : Task nat nat :=
  fun i _ => mkBehaviour [] (if Nat.eqb i 1 then Throws 7%nat else Returns i).

(** Three workers taking turns until all are reported, with a call of
    [entangledMode(false)] on the way. *)
Definition round_robin : list Event :=
  map Step [0; 1; 2]%nat ++ [CallEntangledMode (Some false)] ++
  map Step [0; 1; 2; 0; 1; 2; 0; 1; 2; 0; 1; 2]%nat.

(* ------------------------------------------------------------------ *)
(** ** What the workers can see *)

Section WorkerView.

Context {Value Err : Type}.

(** The part of a run that the worker threads read and write: the
    snapshot of the flag, the cell and the workers' own states. The
    promise, [results] and [completed] belong to the main thread. *)
Definition worker_view (st : Run Value Err)
  : bool * option Z * list (Worker Value Err) :=
  (entangledEnabled st, sharedArray st, workers st).

(** The cell, when there is one, holds an int32. *)
Definition cell_is_int32 (st : Run Value Err) : Prop :=
  forall c, sharedArray st = Some c -> INT32_MIN <= c <= INT32_MAX.

(** Worker [i] is running, or has run, the call [fn(sb, maybeUpdateShared)]:
    it was handed [sb], what it has still to publish is the end of what
    that call publishes, the score it is about to store is the one that
    call passed, and it ends the way that call ends. *)
Definition runs_task (fn : Task Value Err) (i : nat) (sb : Number)
    (w : Worker Value Err) : Prop :=
  match w with
  | Spawned => False
  | InTask sb' todo res =>
      sb' = sb /\ res = outcome (fn i sb) /\
      exists done, publishes (fn i sb) = done ++ todo
  | Storing sb' scaled todo res =>
      sb' = sb /\ res = outcome (fn i sb) /\
      exists done score,
        publishes (fn i sb) = done ++ score :: todo /\ scaled = scale score
  | Posted sb' res => sb' = sb /\ res = outcome (fn i sb)
  | Reported sb' => sb' = sb
  end.

(** A worker whose task, if it has started, ends by returning. *)
Definition will_return (w : Worker Value Err) : Prop :=
  match w with
  | InTask _ _ res | Storing _ _ _ res | Posted _ res =>
      exists v, res = Returns v
  | Spawned | Reported _ => True
  end.

End WorkerView.

(* ------------------------------------------------------------------ *)
(** ** NanoTensor: text and number arrays as 0/1 tensors
    (class [NanoTensor], in [src/Tensor/QunTime.js]) *)

Module NanoTensor.

(** A JavaScript string: its UTF-16 code units. *)
Definition JSString : Type := list N.

(** A string over the characters "0", "1" and "-": what [toString(2)] of
    an integer and [padStart(_, "0")] produce. *)
Inductive BinChar : Type :=
| C0
| C1
| CMinus.

Definition BITS_PER_CHAR : nat := 16.
Definition MAX_CHARS : nat := 16.
Definition TOTAL_BITS : nat := BITS_PER_CHAR * MAX_CHARS.

(** [s.padEnd(n, fill)] and [s.padStart(n, fill)], [fill] one character. *)
Definition padEnd {A : Type} (n : nat) (fill : A) (s : list A) : list A :=
  s ++ repeat fill (n - length s).

Definition padStart {A : Type} (n : nat) (fill : A) (s : list A) : list A :=
  repeat fill (n - length s) ++ s.

(** [s.slice(0, n)] and [s.slice(-n)]. *)
Definition slice_to {A : Type} (n : nat) (s : list A) : list A := firstn n s.

Definition slice_last {A : Type} (n : nat) (s : list A) : list A :=
  skipn (length s - n) s.

(** Surrogates: [Array.from(string)] walks a string by code points, and
    keeps a high surrogate with the low surrogate that follows it. *)
Definition is_high_surrogate (c : N) : bool :=
  ((55296 <=? c) && (c <=? 56319))%N.

Definition is_low_surrogate (c : N) : bool :=
  ((56320 <=? c) && (c <=? 57343))%N.

Fixpoint Array_from (s : JSString) : list JSString :=
  match s with
  | [] => []
  | hi :: rest =>
      match rest with
      | lo :: rest' =>
          if is_high_surrogate hi && is_low_surrogate lo
          then [hi; lo] :: Array_from rest'
          else [hi] :: Array_from rest
      | [] => [[hi]]
      end
  end.

(** [c.charCodeAt(0)]; [NaN] on the empty string is not represented, the
    elements of [Array.from] are never empty. *)
Definition charCodeAt0 (c : JSString) : N := hd 0%N c.

(** The binary digits of a positive number, the most significant first. *)
Fixpoint binary_digits (p : positive) : list bool :=
  match p with
  | xH => [true]
  | xO q => binary_digits q ++ [false]
  | xI q => binary_digits q ++ [true]
  end.

Definition digit (b : bool) : BinChar := if b then C1 else C0.

(** [n.toString(2)] for an integer [n]. *)
Definition toString2 (n : Z) : list BinChar :=
  match n with
  | Z0 => [C0]
  | Zpos p => map digit (binary_digits p)
  | Zneg p => CMinus :: map digit (binary_digits p)
  end.

(** [Number(b)] for a one-character string [b] over "0", "1", "-". *)
Definition Number_of_BinChar (b : BinChar) : Number :=
  match b with
  | C0 => 0%float
  | C1 => 1%float
  | CMinus => nan
  end.

(** [Number(n) > 0.5 ? "1" : "0"]. *)
Definition threshold (n : Number) : bool := (0.5 <? n)%float.

(** [parseInt(b, 2)] for a non-empty string [b] of binary digits
    ([true] is "1"). *)
Definition parseInt2 (b : list bool) : N :=
  fold_left (fun (acc : N) (d : bool) => (2 * acc + (if d then 1 else 0))%N)
            b 0%N.

(** [bin.match(/.{1,16}/g) || []] on a string without line terminators:
    pieces of 16 characters, the last one shorter when the length is not
    a multiple of 16. *)
Fixpoint match_chunks_aux {A : Type} (fuel : nat) (s : list A)
  : list (list A) :=
  match fuel with
  | O => []
  | S fuel' =>
      match s with
      | [] => []
      | _ :: _ =>
          firstn BITS_PER_CHAR s
          :: match_chunks_aux fuel' (skipn BITS_PER_CHAR s)
      end
  end.

Definition match_chunks {A : Type} (s : list A) : list (list A) :=
  match_chunks_aux (length s) s.

(** [String.fromCharCode(n)]: the code unit [n] modulo 2^16. *)
Definition fromCharCode (n : N) : N := (n mod 65536)%N.

(** The characters [trim] removes: white space and line terminators. *)
Definition is_whitespace (c : N) : bool :=
  ((c =? 9) || (c =? 10) || (c =? 11) || (c =? 12) || (c =? 13)
   || (c =? 32) || (c =? 160) || (c =? 5760)
   || ((8192 <=? c) && (c <=? 8202))
   || (c =? 8232) || (c =? 8233) || (c =? 8239) || (c =? 8287)
   || (c =? 12288) || (c =? 65279))%N.

Fixpoint trimStart (s : JSString) : JSString :=
  match s with
  | [] => []
  | c :: s' => if is_whitespace c then trimStart s' else s
  end.

Definition trimEnd (s : JSString) : JSString := rev (trimStart (rev s)).

Definition trim (s : JSString) : JSString := trimStart (trimEnd s).

Definition default_bits (bits : option nat) : nat :=
  match bits with Some b => b | None => TOTAL_BITS end.

(** [text.padEnd(MAX_CHARS).slice(0, MAX_CHARS)]; a space is 32. *)
Definition safeText (text : JSString) : JSString :=
  slice_to MAX_CHARS (padEnd MAX_CHARS 32%N text).

(** [static textToTensor(text, bits = NanoTensor.TOTAL_BITS)]. *)
Definition textToTensor (text : JSString) (bits : option nat) : list Number :=
  let bits := default_bits bits in
  let binary :=
    concat (map (fun c => padStart BITS_PER_CHAR C0
                            (toString2 (Z.of_N (charCodeAt0 c))))
                (Array_from (safeText text))) in
  let binary := slice_to bits (padEnd bits C0 binary) in
  map Number_of_BinChar binary.

(** [static tensorToText(tensor, bits = NanoTensor.TOTAL_BITS)]. *)
Definition tensorToText (tensor : list Number) (bits : option nat)
  : JSString :=
  let bits := default_bits bits in
  let bin := slice_to bits (padEnd bits false (map threshold tensor)) in
  let chars := match_chunks bin in
  trim (map (fun b => fromCharCode (parseInt2 b)) chars).

(** The object [{ tensor, length }] that [arrayToTensor] returns. *)
Record Encoded : Type := mkEncoded {
  tensor : list Number;
  length_ : nat
}.

(** [static arrayToTensor(array, bits = NanoTensor.TOTAL_BITS)] on an
    array of integers, which [Math.round(Number(value))] leaves as they
    are. *)
Definition arrayToTensor (array : list Z) (bits : option nat) : Encoded :=
  let bits := default_bits bits in
  let binaryArray :=
    map (fun value => slice_last BITS_PER_CHAR
                        (padStart BITS_PER_CHAR C0 (toString2 value)))
        array in
  let binary := concat binaryArray in
  let binary := slice_to bits (padEnd bits C0 binary) in
  mkEncoded (map Number_of_BinChar binary) (length array).

(** [static tensorToArray({ tensor, length }, bits = NanoTensor.TOTAL_BITS)]. *)
Definition tensorToArray (enc : Encoded) (bits : option nat) : list N :=
  let bits := default_bits bits in
  let bin := slice_to bits (padEnd bits false (map threshold (tensor enc))) in
  let chunks := match_chunks bin in
  map parseInt2 (slice_to (length_ enc) chunks).

(** The character of a binary string as the decoders read it back:
    [Number("-")] is [NaN], which is not above 0.5. *)
Definition read_back (c : BinChar) : bool :=
  match c with C1 => true | C0 | CMinus => false end.

(** The 16 characters [arrayToTensor] writes for one value. *)
Definition encoded_value (value : Z) : list BinChar :=
  slice_last BITS_PER_CHAR (padStart BITS_PER_CHAR C0 (toString2 value)).

(** The 16 characters [textToTensor] writes for one code unit. *)
Definition encoded_unit (c : N) : list BinChar :=
  padStart BITS_PER_CHAR C0 (toString2 (Z.of_N c)).

End NanoTensor.

(* ------------------------------------------------------------------ *)
(** ** DeepLearn: batches and the replay memory
    ([src/Tensor/secret/DeepLearn.js]) *)

Module DeepLearn.

(** [options.batchSize || 32] and [options.maxMemory || 1000] of the
    constructor, for an option that is absent or a natural number: 0 is
    falsy. *)
Definition or_default (option : option nat) (default : nat) : nat :=
  match option with
  | Some (S n) => S n
  | Some O | None => default
  end.

Definition batchSize_of (option : option nat) : nat := or_default option 32.
Definition maxMemory_of (option : option nat) : nat := or_default option 1000.

(** The loop of [#batchData(data, batchSize)] from index [i]:
    [for (; i < data.length; i += batchSize)
       batches.push(data.slice(i, i + batchSize))].
    [None] when the loop has not ended within [fuel] iterations. *)
Fixpoint batchData_loop {A : Type}
    (fuel : nat) (data : list A) (i batchSize : nat)
  : option (list (list A)) :=
  match fuel with
  | O => None
  | S fuel' =>
      if (i <? length data)%nat
      then option_map (cons (firstn batchSize (skipn i data)))
                      (batchData_loop fuel' data (i + batchSize) batchSize)
      else Some []
  end.

(** [#batchData(data, batchSize)]: the loop needs at most
    [data.length + 1] tests when it advances. *)
Definition batchData {A : Type} (data : list A) (batchSize : nat)
  : option (list (list A)) :=
  batchData_loop (S (length data)) data 0 batchSize.

(** The body of [remember] on the memory, for the experience [e] it
    builds: [this.memory.push(e);
    if (this.memory.length > this.maxMemory) this.memory.shift();]. *)
Definition remember {E : Type} (maxMemory : nat) (memory : list E) (e : E)
  : list E :=
  let memory := memory ++ [e] in
  if (maxMemory <? length memory)%nat then tl memory else memory.

End DeepLearn.

(* ------------------------------------------------------------------ *)
(** ** Encrypt.morse ([src/data/encrypt.js]) *)

Module Encrypt.

Import String Ascii.

(** A JavaScript string as its code units; [units] reads an ASCII
    literal. *)
Definition JSString : Type := list N.

Definition units (s : string) : JSString :=
  map N_of_ascii (list_ascii_of_string s).

(** The object [pattle], in the order of [Object.keys]: the keys that are
    array indices ("0" to "9") in ascending order, then the other keys in
    the order they are written. *)
Definition pattle_entries : list (string * string) :=
  [("0", "-----"); ("1", ".----"); ("2", "..---"); ("3", "...--");
   ("4", "....-"); ("5", "....."); ("6", "-...."); ("7", "--...");
   ("8", "---.."); ("9", "----.");
   ("A", ".-"); ("B", "-..."); ("C", "-.-."); ("D", "-.."); ("E", ".");
   ("F", "..-."); ("G", "--."); ("H", "...."); ("I", ".."); ("J", ".---");
   ("K", "-.-"); ("L", ".-.."); ("M", "--"); ("N", "-."); ("O", "---");
   ("P", ".--."); ("Q", "--.-"); ("R", ".-."); ("S", "..."); ("T", "-");
   ("U", "..-"); ("V", "...-"); ("W", ".--"); ("X", "-..-"); ("Y", "-.--");
   ("Z", "--..");
   (".", ".-.-.-"); (",", "--..--"); ("?", "..--.."); ("'", ".----.");
   ("!", "-.-.--"); ("/", "-..-."); ("(", "-.--."); (")", "-.--.-");
   ("&", ".-..."); (":", "---..."); (";", "-.-.-."); ("=", "-...-");
   ("+", ".-.-."); ("-", "-....-"); ("_", "..--.-"); ("$", "...-..-");
   ("@", ".--.-.")]%string.

(** Every key is one character. *)
Definition pattle : list (N * JSString) :=
  map (fun kv => (hd 0%N (units (fst kv)), units (snd kv))) pattle_entries.

Fixpoint string_eqb (a b : JSString) : bool :=
  match a, b with
  | [], [] => true
  | x :: a', y :: b' => (x =? y)%N && string_eqb a' b'
  | _, _ => false
  end.

(** [pattle[char]] for a one-character string [char]; [None] is
    [undefined]. *)
Fixpoint lookup (table : list (N * JSString)) (char : N) : option JSString :=
  match table with
  | [] => None
  | (k, v) :: table' => if (k =? char)%N then Some v else lookup table' char
  end.

(** [Object.keys(pattle).find(key => pattle[key] === code)]. *)
Fixpoint find_key (table : list (N * JSString)) (code : JSString)
  : option N :=
  match table with
  | [] => None
  | (k, v) :: table' =>
      if string_eqb v code then Some k else find_key table' code
  end.

(** [pattle[char]] is truthy: every code is a non-empty string. *)
Definition is_key (char : N) : bool :=
  match lookup pattle char with Some _ => true | None => false end.

(** [toUpperCase] on an ASCII string: the letters a to z. Outside ASCII
    the method follows the Unicode tables, which are not modelled; the
    theorems are about ASCII texts. *)
Definition toUpperCase_unit (c : N) : N :=
  if ((97 <=? c) && (c <=? 122))%N then (c - 32)%N else c.

Definition toUpperCase (s : JSString) : JSString := map toUpperCase_unit s.

(** [s.split(" ")]: the pieces between the spaces, one piece at least. *)
Fixpoint split_space (s : JSString) : list JSString :=
  match s with
  | [] => [[]]
  | c :: s' =>
      if (c =? 32)%N then [] :: split_space s'
      else match split_space s' with
           | piece :: pieces => (c :: piece) :: pieces
           | [] => [[c]]
           end
  end.

(** The branch [else] of [morse]: text to Morse code. *)
Definition encode (text : JSString) : JSString :=
  let chars := toUpperCase text in
  let result :=
    List.concat (map (fun char => match lookup pattle char with
                             | Some code => code ++ [32%N]
                             | None => [32%N]
                             end) chars) in
  NanoTensor.trim result.

(** The branch [if (reverse)] of [morse]: Morse code to text. *)
Definition decode (text : JSString) : JSString :=
  let morseArray := split_space (NanoTensor.trim text) in
  List.concat (map (fun code => match find_key pattle code with
                           | Some char => [char]
                           | None => [32%N]
                           end) morseArray).

(** [morse = (text, reverse = false) => ...], [text] a string. *)
Definition morse (text : JSString) (reverse : option bool) : JSString :=
  if match reverse with Some b => b | None => false end
  then decode text
  else encode text.

(** What [encode] writes for one character, without the space after it. *)
Definition token (c : N) : JSString :=
  match lookup pattle c with Some code => code | None => [] end.

(** The pieces with one space between each two. *)
Fixpoint join_space (ts : list JSString) : JSString :=
  match ts with
  | [] => []
  | [t] => t
  | t :: ts' => t ++ 32%N :: join_space ts'
  end.

Definition dot_or_dash (c : N) : bool := ((c =? 45) || (c =? 46))%N.

End Encrypt.

(* ------------------------------------------------------------------ *)
(** ** Schedules and the fields a step leaves alone *)

Section PoolFacts.

Context {Value Err : Type}.
Implicit Types (st : Run Value Err) (fn : Task Value Err).
Implicit Types (w : Worker Value Err) (ws : list (Worker Value Err)).

Lemma exec_app fn st evs1 evs2 :
  exec fn st (evs1 ++ evs2) = exec fn (exec fn st evs1) evs2.
Proof. unfold exec. apply fold_left_app. Qed.

Lemma exec_cons fn st ev evs :
  exec fn st (ev :: evs) = exec fn (step fn st ev) evs.
Proof. reflexivity. Qed.

Lemma length_replace_nth i w ws :
  length (replace_nth i w ws) = length ws.
Proof.
  revert i; induction ws as [|w0 ws IH]; intros [|i]; simpl; auto.
Qed.

Lemma nth_error_replace_same i w w0 ws :
  nth_error ws i = Some w0 ->
  nth_error (replace_nth i w ws) i = Some w.
Proof.
  revert i; induction ws as [|w1 ws IH]; intros [|i]; simpl; intros H;
    try discriminate; auto.
Qed.

Lemma nth_error_replace_other i j w ws :
  i <> j ->
  nth_error (replace_nth i w ws) j = nth_error ws j.
Proof.
  revert i j; induction ws as [|w1 ws IH]; intros [|i] [|j] H; simpl; auto.
  congruence.
Qed.

(** The static part of a run: a step changes neither the snapshot of the
    flag nor [count] nor the number of workers. *)
Lemma step_worker_static fn i st :
  entangledEnabled (step_worker fn i st) = entangledEnabled st /\
  count (step_worker fn i st) = count st /\
  length (workers (step_worker fn i st)) = length (workers st) /\
  entangled (step_worker fn i st) = entangled st.
Proof.
  unfold step_worker.
  destruct (nth_error (workers st) i) as [[|sb [|score todo] res|sb sc todo res|sb [v|e]|sb]|];
    try destruct (worker_sharedArray st);
    try destruct (maybeUpdateShared_load _ _);
    simpl; rewrite ?length_replace_nth; auto.
Qed.

Lemma step_static fn st ev :
  entangledEnabled (step fn st ev) = entangledEnabled st /\
  count (step fn st ev) = count st /\
  length (workers (step fn st ev)) = length (workers st).
Proof.
  destruct ev as [i|enable]; simpl.
  - destruct (step_worker_static fn i st) as (? & ? & ? & ?); auto.
  - auto.
Qed.

Lemma exec_static fn evs : forall st,
  entangledEnabled (exec fn st evs) = entangledEnabled st /\
  count (exec fn st evs) = count st /\
  length (workers (exec fn st evs)) = length (workers st).
Proof.
  induction evs as [|ev evs IH]; intros st; [simpl; auto|].
  rewrite exec_cons.
  destruct (IH (step fn st ev)) as (-> & -> & ->).
  apply step_static.
Qed.

Lemma forallb_replace_nth (p : Worker Value Err -> bool) i w ws :
  forallb p ws = true -> p w = true ->
  forallb p (replace_nth i w ws) = true.
Proof.
  revert i; induction ws as [|w0 ws IH]; intros [|i]; simpl; auto;
    intros H Hw; apply andb_true_iff in H as [H0 H1];
    apply andb_true_iff; auto.
Qed.

Lemma parallel_wired flag n : wired (parallel flag n : Run Value Err).
Proof.
  unfold wired, parallel; simpl. destruct flag; [eauto|].
  split; [reflexivity|].
  induction (match n with Some n0 => n0 | None => 4%nat end); simpl; auto.
Qed.

Lemma step_wired fn st ev : wired st -> wired (step fn st ev).
Proof.
  unfold wired. destruct ev as [i|enable]; simpl; auto.
  destruct (step_worker_static fn i st) as (Hs & _). rewrite Hs.
  unfold step_worker, worker_sharedArray.
  destruct (entangledEnabled st) eqn:He.
  - intros [c Hc]. rewrite Hc.
    destruct (nth_error (workers st) i)
      as [[|sb [|score todo] res|sb sc todo res|sb [v|e]|sb]|];
      simpl; eauto.
    destruct (maybeUpdateShared_load _ _); simpl; eauto.
  - intros [Hc Hf].
    destruct (nth_error (workers st) i)
      as [[|sb [|score todo] res|sb sc todo res|sb [v|e]|sb]|] eqn:Hw;
      simpl; auto;
      try (split; [assumption | apply forallb_replace_nth; auto]).
    exfalso. apply nth_error_In in Hw.
    rewrite forallb_forall in Hf. apply Hf in Hw. discriminate.
Qed.

Lemma exec_wired fn evs : forall st, wired st -> wired (exec fn st evs).
Proof.
  induction evs as [|ev evs IH]; intros st H; [assumption|].
  rewrite exec_cons. apply IH, step_wired, H.
Qed.

Lemma wired_worker_sharedArray st :
  wired st ->
  worker_sharedArray st = sharedArray st.
Proof.
  unfold wired, worker_sharedArray.
  destruct (entangledEnabled st); [reflexivity|]. intros [-> _]. reflexivity.
Qed.

End PoolFacts.

(* ------------------------------------------------------------------ *)
(** ** The flag is read once, at launch *)

Section Snapshot.

Context {Value Err : Type}.
Implicit Types (st : Run Value Err) (fn : Task Value Err).

Lemma step_worker_view fn i st st' :
  run_view st = run_view st' ->
  run_view (step_worker fn i st) = run_view (step_worker fn i st').
Proof.
  destruct st as [f e c n ws k rs p], st' as [f' e' c' n' ws' k' rs' p'].
  unfold run_view; simpl. intros H; injection H as -> -> -> -> -> -> ->.
  unfold step_worker, worker_sharedArray; simpl.
  destruct (nth_error ws' i)
    as [[|sb [|score todo] res|sb sc todo res|sb [v|er]|sb]|];
    simpl; try reflexivity.
  destruct e'; simpl; try reflexivity.
  destruct c'; simpl; try reflexivity.
  destruct (maybeUpdateShared_load score z); reflexivity.
Qed.

Lemma exec_view fn evs : forall st st',
  run_view st = run_view st' ->
  run_view (exec fn st evs) = run_view (exec fn st' (steps_only evs)).
Proof.
  induction evs as [|[i|enable] evs IH]; intros st st' H; simpl.
  - assumption.
  - apply IH, step_worker_view, H.
  - apply IH. rewrite <- H. reflexivity.
Qed.

End Snapshot.

(* ------------------------------------------------------------------ *)
(** ** The coordinator: what the promise holds after a schedule *)

Section Coordinator.

Context {Value Err : Type}.
Implicit Types (st : Run Value Err) (fn : Task Value Err).
Implicit Types (w : Worker Value Err) (ws : list (Worker Value Err)).
Implicit Types (os : list (Outcome Value Err)).

Lemma observations_app fn evs1 : forall st evs2,
  observations fn st (evs1 ++ evs2) =
  observations fn st evs1 ++ observations fn (exec fn st evs1) evs2.
Proof.
  induction evs1 as [|ev evs1 IH]; intros st evs2; simpl; [reflexivity|].
  rewrite IH, app_assoc. reflexivity.
Qed.

Lemma returned_app os1 os2 :
  returned (os1 ++ os2) = returned os1 ++ returned os2.
Proof.
  induction os1 as [|[v|e] os1 IH]; simpl; rewrite ?IH; reflexivity.
Qed.

Lemma first_error_app os1 os2 :
  first_error (os1 ++ os2) =
  match first_error os1 with Some e => Some e | None => first_error os2 end.
Proof.
  induction os1 as [|[v|e] os1 IH]; simpl; auto.
Qed.

Lemma returned_no_error os :
  first_error os = None -> length (returned os) = length os.
Proof.
  induction os as [|[v|e] os IH]; simpl; intros H; auto; discriminate.
Qed.

Lemma count_reported_le ws : (count_reported ws <= length ws)%nat.
Proof. apply filter_length_le. Qed.

Lemma count_reported_replace i w w0 ws :
  nth_error ws i = Some w0 ->
  (count_reported (replace_nth i w ws) + (if is_Reported w0 then 1 else 0)
   = count_reported ws + (if is_Reported w then 1 else 0))%nat.
Proof.
  unfold count_reported.
  revert i; induction ws as [|w1 ws IH]; intros [|i]; simpl; intros H;
    try discriminate.
  - injection H as ->. destruct (is_Reported w0), (is_Reported w); simpl; lia.
  - apply IH in H. destruct (is_Reported w1); simpl; lia.
Qed.

Lemma count_reported_lt i w0 ws :
  nth_error ws i = Some w0 -> is_Reported w0 = false ->
  (count_reported ws < length ws)%nat.
Proof.
  unfold count_reported.
  revert i; induction ws as [|w1 ws IH]; intros [|i]; simpl; intros H H0;
    try discriminate.
  - injection H as ->. rewrite H0.
    pose proof (filter_length_le is_Reported ws). lia.
  - specialize (IH _ H H0). destruct (is_Reported w1); simpl; lia.
Qed.

Lemma count_reported_all ws :
  count_reported ws = length ws <-> forallb is_Reported ws = true.
Proof.
  unfold count_reported.
  induction ws as [|w ws IH]; simpl; [tauto|].
  pose proof (filter_length_le is_Reported ws).
  destruct (is_Reported w); simpl.
  - rewrite <- IH. lia.
  - split; [lia | discriminate].
Qed.

Lemma parallel_coordinated flag n :
  (1 <= n)%nat ->
  coordinated (parallel flag (Some n) : Run Value Err) [].
Proof.
  intros Hn. constructor; simpl; try reflexivity.
  - apply repeat_length.
  - unfold count_reported. clear Hn.
    induction n; simpl; auto.
  - unfold settled_as; simpl. destruct n; [lia | reflexivity].
Qed.

Lemma settled_as_message n os v :
  (length os < n)%nat ->
  (if Nat.eqb (S (length (returned os))) n
   then match settled_as n os with Pending => Fulfilled | p => p end
   else settled_as n os)
  = settled_as n (os ++ [Returns v]).
Proof.
  intros Hlt. unfold settled_as.
  rewrite first_error_app, length_app; cbn [first_error length].
  destruct (first_error os) as [e|] eqn:He.
  - destruct (Nat.eqb (S (length (returned os))) n); reflexivity.
  - rewrite (returned_no_error _ He).
    replace (length os + 1)%nat with (S (length os)) by lia.
    destruct (Nat.eqb_spec (length os) n); [lia|].
    destruct (Nat.eqb (S (length os)) n); reflexivity.
Qed.

Lemma settled_as_error n os e :
  (length os < n)%nat ->
  match settled_as n os with Pending => Rejected e | p => p end
  = settled_as n (os ++ [Throws e]).
Proof.
  intros Hlt. unfold settled_as.
  rewrite first_error_app; simpl.
  destruct (first_error os) as [e0|]; [reflexivity|].
  destruct (Nat.eqb_spec (length os) n); [lia | reflexivity].
Qed.

Lemma set_worker_coordinated i w w0 st os :
  nth_error (workers st) i = Some w0 ->
  is_Reported w0 = false -> is_Reported w = false ->
  coordinated st os -> coordinated (set_worker _ _ i w st) os.
Proof.
  intros Hi H0 H1 [Hw Hc Hr Hn Hp].
  pose proof (count_reported_replace i w _ _ Hi) as Hrep.
  rewrite H0, H1 in Hrep.
  constructor; cbn [set_worker workers count completed results promise];
    rewrite ?length_replace_nth; try assumption.
  lia.
Qed.

Lemma set_cell_coordinated c st os :
  coordinated st os -> coordinated (set_cell _ _ c st) os.
Proof. intros [Hw Hc Hr Hn Hp]. constructor; assumption. Qed.

Lemma on_message_coordinated i sb v st os :
  nth_error (workers st) i = Some (Posted sb (Returns v)) ->
  coordinated st os ->
  coordinated (set_worker _ _ i (Reported sb) (on_message _ _ v st))
              (os ++ [Returns v]).
Proof.
  intros Hi [Hw Hc Hr Hn Hp].
  pose proof (count_reported_lt _ _ _ Hi eq_refl) as Hlt.
  pose proof (count_reported_replace i (Reported sb) _ _ Hi) as Hrep.
  cbn [is_Reported] in Hrep.
  constructor;
    cbn [set_worker on_message workers count completed results promise];
    rewrite ?length_replace_nth, ?returned_app, ?length_app;
    cbn [returned length]; try assumption.
  - rewrite Hc. lia.
  - rewrite Hr. reflexivity.
  - lia.
  - rewrite Hc, Hp. apply settled_as_message. lia.
Qed.

Lemma on_error_coordinated i sb e st os :
  nth_error (workers st) i = Some (Posted sb (Throws e)) ->
  coordinated st os ->
  coordinated (set_worker _ _ i (Reported sb) (on_error _ _ e st))
              (os ++ [Throws e]).
Proof.
  intros Hi [Hw Hc Hr Hn Hp].
  pose proof (count_reported_lt _ _ _ Hi eq_refl) as Hlt.
  pose proof (count_reported_replace i (Reported sb) _ _ Hi) as Hrep.
  cbn [is_Reported] in Hrep.
  constructor;
    cbn [set_worker on_error workers count completed results promise];
    rewrite ?length_replace_nth, ?returned_app, ?length_app;
    cbn [returned length]; rewrite ?app_nil_r; try assumption; try lia.
  rewrite Hp. apply settled_as_error. lia.
Qed.

Lemma step_coordinated fn st ev os :
  coordinated st os -> coordinated (step fn st ev) (os ++ observed st ev).
Proof.
  intros H.
  destruct ev as [i|enable]; simpl;
    [|rewrite app_nil_r; destruct H; constructor; assumption].
  unfold step_worker.
  destruct (nth_error (workers st) i)
    as [[|sb [|score todo] res|sb sc todo res|sb [v|e]|sb]|] eqn:Hi;
    rewrite ?app_nil_r; try assumption.
  - eapply set_worker_coordinated; eauto.
  - eapply set_worker_coordinated; eauto.
  - destruct (worker_sharedArray st);
      [destruct (maybeUpdateShared_load _ _)|];
      eapply set_worker_coordinated; eauto.
  - eapply set_worker_coordinated; eauto using set_cell_coordinated.
  - apply on_message_coordinated; assumption.
  - apply on_error_coordinated; assumption.
Qed.

Lemma exec_coordinated fn evs : forall st os,
  coordinated st os ->
  coordinated (exec fn st evs) (os ++ observations fn st evs).
Proof.
  induction evs as [|ev evs IH]; intros st os H; simpl.
  - rewrite app_nil_r. assumption.
  - rewrite app_assoc. apply IH, step_coordinated, H.
Qed.

Lemma exec_parallel_coordinated fn flag n evs :
  (1 <= n)%nat ->
  coordinated (exec fn (parallel flag (Some n)) evs)
              (observations fn (parallel flag (Some n)) evs).
Proof.
  intros Hn.
  apply (exec_coordinated fn evs _ [] (parallel_coordinated flag n Hn)).
Qed.

Lemma coordinated_bound st os :
  coordinated st os -> (length os <= count st)%nat.
Proof.
  intros [Hw _ _ Hn _]. rewrite Hn, <- Hw. apply count_reported_le.
Qed.

Lemma coordinated_all_reported st os :
  coordinated st os -> all_reported st = true -> length os = count st.
Proof.
  intros [Hw _ _ Hn _] Hall. rewrite Hn, <- Hw.
  apply count_reported_all, Hall.
Qed.

Lemma settled_as_Fulfilled n os :
  settled_as n os = Fulfilled -> first_error os = None /\ length os = n.
Proof.
  unfold settled_as. destruct (first_error os); [discriminate|].
  destruct (Nat.eqb_spec (length os) n); [auto | discriminate].
Qed.

Lemma settled_as_Rejected n os e :
  settled_as n os = Rejected e <-> first_error os = Some e.
Proof.
  unfold settled_as. destruct (first_error os) as [e0|].
  - split; intros H; injection H as ->; reflexivity.
  - destruct (Nat.eqb (length os) n); split; discriminate.
Qed.

Lemma Forall_replace_nth (P : Worker Value Err -> Prop) i w ws :
  Forall P ws -> P w -> Forall P (replace_nth i w ws).
Proof.
  intros H Hw. revert i.
  induction H as [|w0 ws H0 H IH]; intros [|i]; simpl; auto.
Qed.

Lemma Forall_nth_error (P : Worker Value Err -> Prop) i w ws :
  Forall P ws -> nth_error ws i = Some w -> P w.
Proof.
  intros H Hi. rewrite Forall_forall in H. eapply H, nth_error_In, Hi.
Qed.

Section ConstantTask.

Variables (fn : Task Value Err) (c : Value).
Hypothesis fn_constant : forall i sb, outcome (fn i sb) = Returns c.

Lemma step_ends_with st ev :
  Forall (ends_with c) (workers st) ->
  Forall (ends_with c) (workers (step fn st ev)).
Proof.
  intros H. destruct ev as [i|enable]; simpl; [|assumption].
  unfold step_worker.
  destruct (nth_error (workers st) i)
    as [[|sb [|score todo] res|sb sc todo res|sb [v|e]|sb]|] eqn:Hi;
    try assumption;
    try (pose proof (Forall_nth_error _ _ _ _ H Hi) as Hc; simpl in Hc);
    try (destruct (worker_sharedArray st);
           [destruct (maybeUpdateShared_load _ _)|]);
    simpl; apply Forall_replace_nth; simpl; auto.
Qed.

Lemma observations_constant evs : forall st,
  Forall (ends_with c) (workers st) ->
  Forall (eq (Returns c)) (observations fn st evs).
Proof.
  induction evs as [|ev evs IH]; intros st H; simpl; [constructor|].
  apply Forall_app; split; [|apply IH, step_ends_with, H].
  destruct ev as [i|enable]; simpl; [|constructor].
  destruct (nth_error (workers st) i) as [[| | |sb res|]|] eqn:Hi;
    try constructor; [|constructor].
  symmetry. apply (Forall_nth_error _ _ _ _ H Hi).
Qed.

Lemma returned_constant os :
  Forall (eq (Returns c)) os ->
  returned os = repeat c (length os) /\ first_error os = None.
Proof.
  induction 1 as [|o os <- H [IH1 IH2]]; simpl; [auto|].
  rewrite IH1. auto.
Qed.

End ConstantTask.

End Coordinator.

(* ------------------------------------------------------------------ *)
(** ** Every run can be completed *)

Section Progress.

Context {Value Err : Type}.
Implicit Types (st : Run Value Err) (fn : Task Value Err).
Implicit Types (w : Worker Value Err) (ws : list (Worker Value Err)).

Lemma step_worker_others fn i j st :
  i <> j ->
  nth_error (workers (step_worker fn i st)) j = nth_error (workers st) j.
Proof.
  intros Hij. unfold step_worker.
  destruct (nth_error (workers st) i)
    as [[|sb [|score todo] res|sb sc todo res|sb [v|e]|sb]|];
    try reflexivity;
    try (destruct (worker_sharedArray st);
           [destruct (maybeUpdateShared_load _ _)|]);
    simpl; apply nth_error_replace_other, Hij.
Qed.

Lemma step_worker_rank fn i st w :
  nth_error (workers st) i = Some w -> started w = true ->
  exists w', nth_error (workers (step_worker fn i st)) i = Some w' /\
             started w' = true /\ (rank w' <= pred (rank w))%nat.
Proof.
  intros Hi Hs. unfold step_worker. rewrite Hi.
  destruct w as [|sb [|score todo] res|sb sc todo res|sb [v|e]|sb];
    try discriminate;
    try (destruct (worker_sharedArray st);
           [destruct (maybeUpdateShared_load _ _)|]);
    try (eexists; split;
         [simpl; eapply nth_error_replace_same; eassumption
         |split; [reflexivity | simpl; lia]]).
  exists (Reported sb). simpl. auto.
Qed.

Lemma run_to_report fn i : forall k st w,
  nth_error (workers st) i = Some w -> started w = true ->
  (rank w <= k)%nat ->
  exists w', nth_error (workers (exec fn st (repeat (Step i) k))) i = Some w'
             /\ is_Reported w' = true.
Proof.
  induction k as [|k IH]; intros st w Hi Hs Hk.
  - exists w. split; [assumption|].
    destruct w as [|sb todo res|sb sc todo res|sb res|sb];
      simpl in *; try discriminate; try lia; reflexivity.
  - destruct (step_worker_rank fn i st w Hi Hs) as (w' & Hi' & Hs' & Hr).
    simpl. apply (IH _ w' Hi' Hs'). lia.
Qed.

Lemma finish_worker fn i st :
  (i < length (workers st))%nat ->
  exists k w', nth_error (workers (exec fn st (repeat (Step i) k))) i = Some w'
               /\ is_Reported w' = true.
Proof.
  intros Hlt.
  destruct (nth_error (workers st) i) as [w|] eqn:Hi;
    [|apply nth_error_None in Hi; lia].
  destruct (started w) eqn:Hs.
  - exists (rank w). eapply run_to_report; eauto.
  - destruct w; try discriminate.
    set (sb := startingBest (worker_sharedArray st)).
    set (w1 := InTask sb (publishes (fn i sb)) (outcome (fn i sb))).
    assert (H1 : nth_error (workers (step_worker fn i st)) i = Some w1).
    { unfold step_worker. rewrite Hi. simpl.
      eapply nth_error_replace_same; eassumption. }
    exists (S (rank w1)). simpl.
    eapply run_to_report; eauto.
Qed.

Lemma exec_repeat_others fn i j : forall k st,
  i <> j ->
  nth_error (workers (exec fn st (repeat (Step i) k))) j
  = nth_error (workers st) j.
Proof.
  induction k as [|k IH]; intros st Hij; simpl; [reflexivity|].
  rewrite IH by assumption. apply step_worker_others, Hij.
Qed.

Lemma finish_first fn : forall m st,
  (m <= length (workers st))%nat ->
  exists evs, forall j, (j < m)%nat ->
    exists w, nth_error (workers (exec fn st evs)) j = Some w
              /\ is_Reported w = true.
Proof.
  induction m as [|m IH]; intros st Hm.
  - exists []. intros j Hj. lia.
  - destruct (IH st) as [evs Hevs]; [lia|].
    destruct (exec_static fn evs st) as (_ & _ & Hlen).
    destruct (finish_worker fn m (exec fn st evs)) as (k & w & Hw & Hr);
      [lia|].
    exists (evs ++ repeat (Step m) k). intros j Hj.
    rewrite exec_app.
    destruct (Nat.eq_dec j m) as [->|Hne]; [eauto|].
    rewrite exec_repeat_others by auto. apply Hevs. lia.
Qed.

Lemma forallb_nth_error (p : Worker Value Err -> bool) ws :
  (forall j, (j < length ws)%nat ->
     exists w, nth_error ws j = Some w /\ p w = true) ->
  forallb p ws = true.
Proof.
  induction ws as [|w ws IH]; intros H; simpl; [reflexivity|].
  apply andb_true_iff; split.
  - destruct (H 0%nat) as (w' & Hw & Hp); [simpl; lia|].
    injection Hw as ->. assumption.
  - apply IH. intros j Hj. apply (H (S j)). simpl; lia.
Qed.

(** Whatever has happened, some continuation of the schedule lets every
    worker end and every listener run. *)
Lemma can_complete fn st :
  exists evs, all_reported (exec fn st evs) = true.
Proof.
  destruct (finish_first fn (length (workers st)) st (le_n _)) as [evs H].
  exists evs. apply forallb_nth_error.
  destruct (exec_static fn evs st) as (_ & _ & ->). exact H.
Qed.

End Progress.

(* ------------------------------------------------------------------ *)
(** ** Rounding down, and the products that cannot go below -1 *)

Section Rounding.

Lemma SF_floor_nonneg_exp s m e :
  0 <= e -> SF_floor s m e = signed s m * 2 ^ e.
Proof. intros He. unfold SF_floor. apply Z.shiftl_mul_pow2, He. Qed.

Lemma SF_floor_neg_exp s m e :
  e < 0 -> SF_floor s m e = signed s m / 2 ^ (- e).
Proof. intros He. unfold SF_floor. apply Z.shiftl_div_pow2. lia. Qed.

(** [SF_floor] rounds down: the value lies in [z, z + 1). *)
Lemma SF_floor_spec s m e :
  e < 0 ->
  SF_floor s m e * 2 ^ (- e) <= signed s m < (SF_floor s m e + 1) * 2 ^ (- e).
Proof.
  intros He. rewrite SF_floor_neg_exp by assumption.
  assert (Hp : 0 < 2 ^ (- e)) by (apply Z.pow_pos_nonneg; lia).
  pose proof (Z.div_mod (signed s m) (2 ^ (- e))) as Hdm.
  pose proof (Z.mod_pos_bound (signed s m) (2 ^ (- e)) Hp).
  lia.
Qed.

(** [SF_trunc] drops the fraction: it is [SF_floor] on a value that is not
    negative, and [SF_floor] or its successor on a negative one. *)
Lemma SF_trunc_nonneg m e : SF_trunc false m e = SF_floor false m e.
Proof.
  unfold SF_trunc. destruct (Z.leb_spec 0 e) as [He|He].
  - rewrite SF_floor_nonneg_exp by assumption. reflexivity.
  - rewrite SF_floor_neg_exp by assumption. simpl signed.
    apply Z.quot_div_nonneg; [lia|]. apply Z.pow_pos_nonneg; lia.
Qed.

Lemma SF_trunc_neg m e :
  SF_floor true m e <= SF_trunc true m e <= SF_floor true m e + 1.
Proof.
  unfold SF_trunc. destruct (Z.leb_spec 0 e) as [He|He].
  - rewrite SF_floor_nonneg_exp by assumption. simpl. lia.
  - pose proof (SF_floor_spec true m e He) as Hf. simpl in Hf.
    assert (Hp : 0 < 2 ^ (- e)) by (apply Z.pow_pos_nonneg; lia).
    change (signed true m) with (- Z.pos m).
    rewrite Z.quot_opp_l by lia.
    rewrite Z.quot_div_nonneg by lia.
    pose proof (Z.div_mod (Z.pos m) (2 ^ (- e))) as Hdm.
    pose proof (Z.mod_pos_bound (Z.pos m) (2 ^ (- e)) Hp).
    nia.
Qed.

Lemma digits2_pos_gt m : Z.pos m < 2 ^ Z.pos (digits2_pos m).
Proof.
  induction m as [m IH|m IH|]; simpl digits2_pos;
    rewrite ?Pos2Z.inj_succ, ?Z.pow_succ_r by lia; lia.
Qed.

(** A valid binary64 mantissa has at most 53 bits. *)
Lemma valid_mantissa s m e :
  valid_binary (S754_finite s m e) = true -> Z.pos m < 2 ^ 53.
Proof.
  unfold valid_binary, bounded, canonical_mantissa, fexp, SpecFloat.emin.
  intros H. apply andb_true_iff in H as [H _]. apply Z.eqb_eq in H.
  pose proof (digits2_pos_gt m) as Hd.
  assert (Hle : Z.pos (digits2_pos m) <= 53) by (unfold prec in H; lia).
  eapply Z.lt_le_trans; [exact Hd|].
  apply Z.pow_le_mono_r; lia.
Qed.

Lemma SFleb_m1_negative m e :
  SFleb (S754_finite true 4503599627370496 (-52)) (S754_finite true m e) = true ->
  e < -52 \/ (e = -52 /\ Z.pos m <= 2 ^ 52).
Proof.
  unfold SFleb, SFcompare.
  destruct (Z.compare_spec (-52) e) as [He|He|He]; try discriminate.
  - change (Pos.compare_cont Eq 4503599627370496 m)
      with (Pos.compare 4503599627370496 m).
    destruct (Pos.compare_spec 4503599627370496 m) as [Hm|Hm|Hm];
      simpl; try discriminate; intros _; right; split; auto.
    + subst m. apply Z.le_refl.
    + apply Z.lt_le_incl. exact Hm.
  - intros _. left. assumption.
Qed.

(** A Number that is at least -1 does not round down below -1. *)
Lemma Math_floor_ge_m1 (p : Number) :
  (-1 <=? p)%float = true -> Integral_ltb (Math_floor p) (-1) = false.
Proof.
  rewrite leb_spec. unfold Math_floor.
  pose proof (Prim2SF_valid p) as Hv.
  change (Prim2SF (-1)%float) with (S754_finite true 4503599627370496 (-52)).
  destruct (Prim2SF p) as [s|[|]| |[|] m e];
    try discriminate; try reflexivity; intros Hle; apply Z.ltb_ge.
  - (* negative and finite *)
    apply valid_mantissa in Hv.
    assert (Hm : Z.pos m <= 2 ^ (- e)).
    { destruct (SFleb_m1_negative m e Hle) as [He|[-> Hm]]; [|exact Hm].
      assert (2 ^ 53 <= 2 ^ (- e)) by (apply Z.pow_le_mono_r; lia).
      lia. }
    rewrite SF_floor_neg_exp
      by (destruct (SFleb_m1_negative m e Hle) as [He|[-> _]]; lia).
    apply Z.div_le_lower_bound.
    + apply Z.pow_pos_nonneg; [lia|].
      destruct (SFleb_m1_negative m e Hle) as [He|[-> _]]; lia.
    + simpl signed. lia.
  - (* positive and finite *)
    unfold SF_floor. simpl signed.
    assert (0 <= Z.shiftl (Z.pos m) e) by (apply Z.shiftl_nonneg; lia).
    lia.
Qed.

Lemma shr_1_nonneg mrs : 0 <= shr_m mrs -> 0 <= shr_m (shr_1 mrs).
Proof.
  destruct mrs as [m r s]. destruct m as [|[p|p|]|[p|p|]]; simpl; lia.
Qed.

Lemma iter_shr_1_nonneg p : forall mrs,
  0 <= shr_m mrs -> 0 <= shr_m (iter_pos shr_1 p mrs).
Proof.
  induction p as [p IH|p IH|]; intros mrs H; simpl;
    auto using shr_1_nonneg.
Qed.

Lemma shr_fexp_nonneg m e l :
  0 <= m -> 0 <= shr_m (fst (shr_fexp prec emax m e l)).
Proof.
  intros Hm. unfold shr_fexp, shr.
  assert (H0 : 0 <= shr_m (shr_record_of_loc m l))
    by (destruct l as [|[| |]]; simpl; assumption).
  destruct (fexp prec emax (Zdigits2 m + e) - e); simpl;
    auto using iter_shr_1_nonneg.
Qed.

Lemma round_nearest_even_nonneg mx lx :
  0 <= mx -> 0 <= round_nearest_even mx lx.
Proof.
  intros H. destruct lx as [|[| |]]; simpl; try destruct (Z.even mx); lia.
Qed.

(** Rounding a magnitude that is not negative, with the positive sign,
    gives a Number that [-1 <= _] accepts. *)
Lemma binary_round_aux_ge_m1 mx ex lx :
  0 <= mx ->
  SFleb (S754_finite true 4503599627370496 (-52))
        (binary_round_aux prec emax false mx ex lx) = true.
Proof.
  intros Hm. unfold binary_round_aux.
  pose proof (shr_fexp_nonneg mx ex lx Hm) as H1.
  destruct (shr_fexp prec emax mx ex lx) as [mrs' e']. simpl in H1.
  pose proof (shr_fexp_nonneg _ e' loc_Exact
                (round_nearest_even_nonneg _ (loc_of_shr_record mrs') H1)) as H2.
  destruct (shr_fexp prec emax _ e' loc_Exact) as [mrs'' e'']. simpl in H2.
  destruct (shr_m mrs'') as [|q|q]; [reflexivity| |lia].
  destruct (e'' <=? emax - prec); reflexivity.
Qed.

(** The product of a score that is not negative is at least -1. *)
Lemma nonneg_score_product (s : Number) :
  (0 <=? s)%float = true -> (-1 <=? s * _1e6)%float = true.
Proof.
  rewrite !leb_spec, mul_spec.
  change (Prim2SF 0%float) with (S754_zero false).
  change (Prim2SF (-1)%float) with (S754_finite true 4503599627370496 (-52)).
  change (Prim2SF _1e6) with (S754_finite false 8589934592000000 (-33)).
  destruct (Prim2SF s) as [z|[|]| |[|] m e]; try discriminate;
    try (destruct z; reflexivity); try reflexivity.
  intros _. unfold SF64mul, SFmul. cbn [xorb].
  apply binary_round_aux_ge_m1. lia.
Qed.

End Rounding.

(* ------------------------------------------------------------------ *)
(** ** [startingBest]: read once, when the worker's script starts *)

Section StartingBest.

Context {Value Err : Type}.
Implicit Types (st : Run Value Err) (fn : Task Value Err).
Implicit Types (w : Worker Value Err) (ws : list (Worker Value Err)).

Lemma parallel_nth_Spawned flag n i :
  (i < n)%nat ->
  nth_error (workers (parallel (Value:=Value) (Err:=Err) flag (Some n))) i
  = Some Spawned.
Proof. intros Hi. simpl. apply nth_error_repeat, Hi. Qed.

Lemma unscheduled_Spawned fn i evs : forall st,
  nth_error (workers st) i = Some Spawned ->
  ~ In (Step i) evs ->
  nth_error (workers (exec fn st evs)) i = Some Spawned.
Proof.
  induction evs as [|ev evs IH]; intros st Hi Hnot; [assumption|].
  rewrite exec_cons. apply IH.
  - destruct ev as [j|enable]; simpl; [|assumption].
    rewrite step_worker_others; [assumption|].
    intros ->. apply Hnot. left. reflexivity.
  - intros Hin. apply Hnot. right. assumption.
Qed.

Lemma step_keeps_startingBest fn st ev i w sb :
  nth_error (workers st) i = Some w -> startingBest_of w = Some sb ->
  exists w', nth_error (workers (step fn st ev)) i = Some w'
             /\ startingBest_of w' = Some sb.
Proof.
  intros Hi Hsb. destruct ev as [j|enable]; simpl; [|eauto].
  destruct (Nat.eq_dec j i) as [->|Hne];
    [|rewrite step_worker_others by assumption; eauto].
  unfold step_worker. rewrite Hi.
  destruct w as [|sb0 [|score todo] res|sb0 sc todo res|sb0 [v|e]|sb0];
    try discriminate;
    try (destruct (worker_sharedArray st);
           [destruct (maybeUpdateShared_load _ _)|]);
    try (eexists; split;
         [simpl; eapply nth_error_replace_same; eassumption | exact Hsb]).
  eauto.
Qed.

Lemma exec_keeps_startingBest fn i sb evs : forall st w,
  nth_error (workers st) i = Some w -> startingBest_of w = Some sb ->
  exists w', nth_error (workers (exec fn st evs)) i = Some w'
             /\ startingBest_of w' = Some sb.
Proof.
  induction evs as [|ev evs IH]; intros st w Hi Hsb; [eauto|].
  rewrite exec_cons.
  destruct (step_keeps_startingBest fn st ev i w sb Hi Hsb) as (w' & Hi' & Hsb').
  eapply IH; eassumption.
Qed.

Lemma first_step_reads fn st i :
  nth_error (workers st) i = Some Spawned ->
  exists w, nth_error (workers (step_worker fn i st)) i = Some w /\
            startingBest_of w = Some (startingBest (worker_sharedArray st)).
Proof.
  intros Hi. unfold step_worker. rewrite Hi.
  eexists; split;
    [simpl; eapply nth_error_replace_same; eassumption | reflexivity].
Qed.

End StartingBest.

(* ------------------------------------------------------------------ *)
(** ** A register that starts at -1 *)

Section Stuck.

Context {Value Err : Type}.
Implicit Types (st : Run Value Err) (w : Worker Value Err).

Lemma initial_cell_eq : initial_cell = -1.
Proof. vm_compute. reflexivity. Qed.

Lemma startingBest_initial :
  startingBest (Some (-1)) = (-0.000001)%float.
Proof. vm_compute. reflexivity. Qed.

Lemma maybeUpdateShared_load_ge_m1 (s : Number) :
  (-1 <=? s * _1e6)%float = true -> maybeUpdateShared_load s (-1) = None.
Proof.
  intros H. unfold maybeUpdateShared_load, scale.
  rewrite (Math_floor_ge_m1 _ H). reflexivity.
Qed.

Variable fn : Task Value Err.
Hypothesis fn_above_m1 :
  forall i sb s, In s (publishes (fn i sb)) -> above_m1 s.

Lemma step_stuck st ev : stuck st -> stuck (step fn st ev).
Proof.
  intros (He & Hc & Hq). destruct ev as [i|enable]; simpl;
    [|repeat split; assumption].
  unfold step_worker, worker_sharedArray. rewrite He, Hc.
  destruct (nth_error (workers st) i)
    as [[|sb [|score todo] res|sb sc todo res|sb [v|e]|sb]|] eqn:Hi;
    try (repeat split; assumption);
    pose proof (Forall_nth_error _ _ _ _ Hq Hi) as Hw; simpl in Hw.
  - repeat split; try assumption. simpl.
    apply Forall_replace_nth; [assumption|]. simpl.
    split; [apply startingBest_initial|].
    apply Forall_forall. intros s Hs. eapply fn_above_m1, Hs.
  - repeat split; try assumption. simpl.
    apply Forall_replace_nth; [assumption|]. simpl. tauto.
  - destruct Hw as [Hsb Htodo].
    rewrite maybeUpdateShared_load_ge_m1 by (inversion Htodo; assumption).
    repeat split; try assumption. simpl.
    apply Forall_replace_nth; [assumption|]. simpl.
    split; [assumption | inversion Htodo; assumption].
  - contradiction.
  - repeat split; try assumption. simpl.
    apply Forall_replace_nth; assumption.
  - repeat split; try assumption. simpl.
    apply Forall_replace_nth; assumption.
Qed.

Lemma exec_stuck evs : forall st, stuck st -> stuck (exec fn st evs).
Proof.
  induction evs as [|ev evs IH]; intros st H; [assumption|].
  rewrite exec_cons. apply IH, step_stuck, H.
Qed.

Lemma parallel_stuck n : stuck (parallel true n : Run Value Err).
Proof.
  unfold stuck, parallel. cbn [entangledEnabled sharedArray workers].
  rewrite initial_cell_eq. repeat split.
  apply Forall_forall. intros w Hw.
  apply repeat_spec in Hw. subst w. exact I.
Qed.

Lemma quiet_startingBest w sb :
  quiet w -> startingBest_of w = Some sb -> sb = (-0.000001)%float.
Proof.
  destruct w; simpl; intros H Hsb; try discriminate; try contradiction;
    injection Hsb as <-; tauto.
Qed.

End Stuck.

(* ------------------------------------------------------------------ *)
(** ** What the code does with the register *)

(** C1: [maybeUpdateShared] is an [Atomics.load] followed by a separate
    [Atomics.store], not a compare-and-swap loop, and updates are lost:
    with two workers publishing -2 and -3, the schedule in which both load
    before either stores ends with the register at -2000000, although
    -3000000 was published; the serial schedule ends at -3000000. The final
    value is not the minimum of the published candidates under every
    interleaving. *)
Theorem maybeUpdateShared_lost_update :
  let st := exec two_publishers (parallel true (Some 2%nat)) racy_schedule in
  all_reported st = true /\
  promise st = Fulfilled /\
  scale (-2)%float = IInt (-2000000) /\
  scale (-3)%float = IInt (-3000000) /\
  sharedArray st = Some (-2000000) /\
  sharedArray (exec two_publishers (parallel true (Some 2%nat)) serial_schedule)
  = Some (-3000000).
Proof. vm_compute. repeat split; reflexivity. Qed.

(** C2: with the flag set at launch the register does not start at the
    largest int32: [sharedArray[0] = Number.MAX_SAFE_INTEGER] stores
    [ToInt32(2^53 - 1)], which is -1, and -1 is what a worker reads before
    any publish. *)
Theorem register_initial_value (Value Err : Type) (count : option nat) :
  sharedArray (parallel (Value:=Value) (Err:=Err) true count) = Some (-1) /\
  ToInt32 MAX_SAFE_INTEGER = -1 /\
  -1 < INT32_MAX /\
  startingBest (sharedArray (parallel (Value:=Value) (Err:=Err) true count))
  = (-0.000001)%float.
Proof.
  unfold parallel. cbn [sharedArray]. rewrite initial_cell_eq.
  split; [reflexivity|]. split; [exact initial_cell_eq|].
  split; [reflexivity | exact startingBest_initial].
Qed.

(** C5: the register can grow. A single uninterrupted call
    [maybeUpdateShared(-3000)] on the fresh register -1 passes the test
    (-3000000000 < -1) and [Atomics.store] wraps the value to 1294967296;
    [maybeUpdateShared(-Infinity)] stores 0; and in the racy schedule the
    register goes from -3000000 up to -2000000. *)
Theorem maybeUpdateShared_can_increase :
  scale (-3000)%float = IInt (-3000000000) /\
  maybeUpdateShared (-3000)%float (-1) = 1294967296 /\
  maybeUpdateShared neg_infinity (-1) = 0 /\
  sharedArray (exec two_publishers (parallel true (Some 2%nat))
                    (firstn 5 racy_schedule)) = Some (-3000000) /\
  sharedArray (exec two_publishers (parallel true (Some 2%nat))
                    (firstn 6 racy_schedule)) = Some (-2000000).
Proof. vm_compute. repeat split; reflexivity. Qed.

(** C3: the register starts at -1 ([Number.MAX_SAFE_INTEGER] reduced
    modulo 2^32). A call [maybeUpdateShared(s)] with [s * 1e6 >= -1], and
    so with any [s >= 0], leaves it at -1; and in a run whose tasks publish
    only such scores the register stays at -1 under every schedule and
    every worker that has started was given
    [startingBest = -1 / 1e6 = -0.000001]. *)
Theorem register_stuck_at_minus_one
    (Value Err : Type) (fn : Task Value Err) (count : option nat)
    (evs : list Event) :
  (forall i sb s, In s (publishes (fn i sb)) ->
                  (-1 <=? s * _1e6)%float = true) ->
  let st := exec fn (parallel true count) evs in
  initial_cell = -1 /\
  (forall s, (-1 <=? s * _1e6)%float = true -> maybeUpdateShared s (-1) = -1) /\
  (forall s, (0 <=? s)%float = true -> maybeUpdateShared s (-1) = -1) /\
  (Number_of_int32 (-1) / _1e6)%float = (-0.000001)%float /\
  sharedArray st = Some (-1) /\
  (forall i w sb, nth_error (workers st) i = Some w ->
                  startingBest_of w = Some sb -> sb = (-0.000001)%float).
Proof.
  intros Hfn st.
  assert (Hload : forall s, (-1 <=? s * _1e6)%float = true ->
                            maybeUpdateShared s (-1) = -1).
  { intros s Hs. unfold maybeUpdateShared.
    rewrite maybeUpdateShared_load_ge_m1 by assumption. reflexivity. }
  destruct (exec_stuck fn Hfn evs _ (parallel_stuck count)) as (_ & Hc & Hq).
  split; [exact initial_cell_eq|].
  split; [exact Hload|].
  split; [intros s Hs; apply Hload, nonneg_score_product, Hs|].
  split; [exact startingBest_initial|].
  split; [exact Hc|].
  intros i w sb Hi Hsb.
  eapply quiet_startingBest; [|exact Hsb].
  eapply Forall_nth_error; eassumption.
Qed.

Lemma register_stuck_at_minus_one_witness :
  sharedArray (exec constant_21 (parallel true (Some 3%nat)) round_robin)
  = Some (-1).
Proof.
  refine (proj1 (proj2 (proj2 (proj2 (proj2
    (register_stuck_at_minus_one nat nat constant_21 (Some 3%nat)
       round_robin _)))))).
  intros i sb s [<-|[]]. vm_compute. reflexivity.
Defined.

Section TaskStart.

Context {Value Err : Type}.
Implicit Types (st : Run Value Err) (fn : Task Value Err).
Implicit Types (w : Worker Value Err).

Lemma maybeUpdateShared_load_scaled score current scaled :
  maybeUpdateShared_load score current = Some scaled -> scaled = scale score.
Proof.
  unfold maybeUpdateShared_load.
  destruct (Integral_ltb (scale score) current); [|discriminate].
  intros H. injection H as <-. reflexivity.
Qed.

Lemma first_step_calls fn st i :
  nth_error (workers st) i = Some Spawned ->
  nth_error (workers (step_worker fn i st)) i
  = Some (InTask (startingBest (worker_sharedArray st))
                 (publishes (fn i (startingBest (worker_sharedArray st))))
                 (outcome (fn i (startingBest (worker_sharedArray st))))).
Proof.
  intros Hi. unfold step_worker. rewrite Hi. simpl.
  eapply nth_error_replace_same. eassumption.
Qed.

Lemma step_runs_task fn st ev i sb w :
  nth_error (workers st) i = Some w -> runs_task fn i sb w ->
  exists w', nth_error (workers (step fn st ev)) i = Some w'
             /\ runs_task fn i sb w'.
Proof.
  intros Hi Hrun. destruct ev as [j|enable]; simpl; [|eauto].
  destruct (Nat.eq_dec j i) as [->|Hne];
    [|rewrite step_worker_others by assumption; eauto].
  unfold step_worker. rewrite Hi.
  destruct w as [|sb0 [|score todo] res|sb0 sc todo res|sb0 [v|e]|sb0];
    simpl in Hrun.
  - contradiction.
  - destruct Hrun as (-> & -> & _).
    eexists; split;
      [simpl; eapply nth_error_replace_same; eassumption|].
    simpl. auto.
  - destruct Hrun as (-> & -> & done & Hdone).
    assert (Hnext : exists done', publishes (fn i sb) = done' ++ todo).
    { exists (done ++ [score]). rewrite <- app_assoc. exact Hdone. }
    destruct (worker_sharedArray st) as [current|];
      [destruct (maybeUpdateShared_load score current) as [scaled|] eqn:Hload|];
      (eexists; split;
         [simpl; eapply nth_error_replace_same; eassumption|]);
      simpl; auto.
    split; [reflexivity|]. split; [reflexivity|].
    exists done, score. split; [exact Hdone|].
    eapply maybeUpdateShared_load_scaled, Hload.
  - destruct Hrun as (-> & -> & done & score & Hdone & _).
    eexists; split;
      [simpl; eapply nth_error_replace_same; eassumption|].
    simpl. split; [reflexivity|]. split; [reflexivity|].
    exists (done ++ [score]). rewrite <- app_assoc. exact Hdone.
  - destruct Hrun as (-> & Hres).
    eexists; split;
      [simpl; eapply nth_error_replace_same; eassumption|].
    reflexivity.
  - destruct Hrun as (-> & Hres).
    eexists; split;
      [simpl; eapply nth_error_replace_same; eassumption|].
    reflexivity.
  - eauto.
Qed.

Lemma exec_runs_task fn i sb evs : forall st w,
  nth_error (workers st) i = Some w -> runs_task fn i sb w ->
  exists w', nth_error (workers (exec fn st evs)) i = Some w'
             /\ runs_task fn i sb w'.
Proof.
  induction evs as [|ev evs IH]; intros st w Hi Hrun; [eauto|].
  rewrite exec_cons.
  destruct (step_runs_task fn st ev i sb w Hi Hrun) as (w' & Hi' & Hrun').
  eapply IH; eassumption.
Qed.

Lemma runs_task_startingBest fn i sb w :
  runs_task fn i sb w -> startingBest_of w = Some sb.
Proof.
  destruct w; simpl; intros H; try contradiction;
    try (destruct H as (-> & _); reflexivity).
  subst. reflexivity.
Qed.

End TaskStart.

(** C4: the first step of a worker reads the register once and calls the
    task with the value read: with the flag set at launch it is the cell
    at that moment divided by 1e6, with the flag clear it is [Infinity].
    That step leaves the worker inside [fn(startingBest, maybeUpdateShared)]
    for exactly this [startingBest], and whatever the other units and the
    rest of the schedule do, the worker keeps running that one call: the
    value it was handed, the scores it still publishes and the way it ends
    are those of the task at this [startingBest]. *)
Theorem startingBest_at_task_start
    (Value Err : Type) (fn : Task Value Err) (flag : bool) (n i : nat)
    (before after : list Event) :
  (i < n)%nat ->
  ~ In (Step i) before ->
  let st1 := exec fn (parallel flag (Some n)) before in
  let st2 := exec fn st1 (Step i :: after) in
  exists w sb,
    nth_error (workers (step fn st1 (Step i))) i
    = Some (InTask sb (publishes (fn i sb)) (outcome (fn i sb))) /\
    nth_error (workers st2) i = Some w /\
    startingBest_of w = Some sb /\
    runs_task fn i sb w /\
    (flag = true ->
       exists cell, sharedArray st1 = Some cell /\
                    sb = (Number_of_int32 cell / _1e6)%float) /\
    (flag = false -> sb = Infinity).
Proof.
  intros Hi Hnot st1 st2.
  assert (Hsp : nth_error (workers st1) i = Some Spawned).
  { apply unscheduled_Spawned; [apply parallel_nth_Spawned, Hi | exact Hnot]. }
  pose proof (first_step_calls fn st1 i Hsp) as Hfirst.
  set (sb := startingBest (worker_sharedArray st1)) in *.
  assert (Hrun1 : runs_task fn i sb
                    (InTask sb (publishes (fn i sb)) (outcome (fn i sb)))).
  { simpl. split; [reflexivity|]. split; [reflexivity|].
    exists []. reflexivity. }
  destruct (exec_runs_task fn i sb after _ _ Hfirst Hrun1) as (w & Hw & Hrun).
  exists w, sb.
  split; [exact Hfirst|]. split; [exact Hw|].
  split; [exact (runs_task_startingBest fn i sb w Hrun)|].
  split; [exact Hrun|].
  pose proof (exec_wired fn before _ (parallel_wired flag (Some n))) as Hwired.
  fold st1 in Hwired.
  destruct (exec_static fn before (parallel flag (Some n))) as (He & _).
  fold st1 in He. simpl in He.
  unfold wired in Hwired. unfold sb, worker_sharedArray. rewrite He in *.
  split; intros ->.
  - destruct Hwired as [cell Hc]. exists cell. rewrite Hc. auto.
  - reflexivity.
Qed.

Lemma startingBest_at_task_start_witness :
  (exists w,
     nth_error
       (workers (exec two_publishers
                      (exec two_publishers (parallel true (Some 2%nat))
                            [Step 0%nat; Step 0%nat; Step 0%nat])
                      (Step 1%nat :: [Step 1%nat; Step 0%nat]))) 1%nat
     = Some w /\
     startingBest_of w = Some (-2)%float /\
     runs_task two_publishers 1 (-2)%float w) /\
  (exists w sb,
     nth_error
       (workers (step constant_21
                      (exec constant_21 (parallel false (Some 3%nat))
                            [Step 0%nat])
                      (Step 1%nat))) 1%nat
     = Some (InTask sb (publishes (constant_21 1%nat sb))
                    (outcome (constant_21 1%nat sb))) /\
     nth_error
       (workers (exec constant_21
                      (exec constant_21 (parallel false (Some 3%nat))
                            [Step 0%nat])
                      (Step 1%nat :: [Step 2%nat; Step 1%nat]))) 1%nat
     = Some w /\
     startingBest_of w = Some sb /\
     runs_task constant_21 1 sb w /\
     (false = true ->
        exists cell,
          sharedArray (exec constant_21 (parallel false (Some 3%nat))
                            [Step 0%nat]) = Some cell /\
          sb = (Number_of_int32 cell / _1e6)%float) /\
     (false = false -> sb = Infinity)).
Proof.
  split.
  - destruct (startingBest_at_task_start nat nat two_publishers true 2 1
                [Step 0%nat; Step 0%nat; Step 0%nat]
                [Step 1%nat; Step 0%nat])
      as (w & sb & _ & Hw & Hsb & Hrun & Hon & _).
    + lia.
    + intros [H|[H|[H|[]]]]; discriminate H.
    + destruct (Hon eq_refl) as (cell & Hcell & Hval).
      vm_compute in Hcell. injection Hcell as <-.
      assert (Hsb2 : sb = (-2)%float) by (rewrite Hval; vm_compute; reflexivity).
      subst sb. exists w. split; [exact Hw|]. split; [exact Hsb | exact Hrun].
  - refine (startingBest_at_task_start nat nat constant_21 false 3 1
              [Step 0%nat] [Step 2%nat; Step 1%nat] _ _).
    + lia.
    + intros [H|[]]. discriminate H.
Defined.

(** C6, counterexample: the scaling is not a truncation toward zero, and
    scores closer than 1e-6 are told apart. [-0.0000005] scales to -1 where
    truncation gives 0; [0.9999995] and [1.0000004] differ by less than
    1e-6 and scale to 999999 and 1000000, which a register holding 1000000
    distinguishes. *)
Lemma scale_truncation_counterexample :
  scale (-0.0000005)%float = IInt (-1) /\
  Math_trunc (-0.0000005 * _1e6)%float = IInt 0 /\
  (1.0000004 - 0.9999995 <? 0.000001)%float = true /\
  scale 0.9999995%float = IInt 999999 /\
  scale 1.0000004%float = IInt 1000000 /\
  maybeUpdateShared 0.9999995%float 1000000 = 999999 /\
  maybeUpdateShared 1.0000004%float 1000000 = 1000000.
Proof. vm_compute. repeat split; reflexivity. Qed.

(** C6, amended: the scaling multiplies the candidate by 1e6 and rounds
    the product down ([Math.floor], toward minus infinity). For a finite
    product (-1)^s * m * 2^e the scaled integer [z] satisfies
    [z <= product < z + 1]; it is the truncation toward zero when the
    product is not negative, and the truncation or one less when it is
    negative. Two scores with the same scaled value are indistinguishable
    in the register. *)
Theorem scale_rounds_down (score : Number) :
  scale score = Math_floor (score * _1e6)%float /\
  match Prim2SF (score * _1e6)%float with
  | S754_finite s m e =>
      exists z,
        scale score = IInt z /\
        (0 <= e -> z = signed s m * 2 ^ e) /\
        (e < 0 -> z * 2 ^ (- e) <= signed s m < (z + 1) * 2 ^ (- e)) /\
        (s = false -> Math_trunc (score * _1e6)%float = IInt z) /\
        (s = true ->
           exists t, Math_trunc (score * _1e6)%float = IInt t /\ z <= t <= z + 1)
  | _ => Math_trunc (score * _1e6)%float = scale score
  end /\
  (forall other cell,
     scale other = scale score ->
     maybeUpdateShared other cell = maybeUpdateShared score cell).
Proof.
  split; [reflexivity|]. split.
  - unfold scale, Math_floor, Math_trunc.
    destruct (Prim2SF (score * _1e6)%float) as [z|z| |s m e]; try reflexivity.
    exists (SF_floor s m e). split; [reflexivity|].
    split; [intros He; apply SF_floor_nonneg_exp, He|].
    split; [intros He; apply SF_floor_spec, He|].
    split; intros ->.
    + rewrite SF_trunc_nonneg. reflexivity.
    + exists (SF_trunc true m e). split; [reflexivity | apply SF_trunc_neg].
  - intros other cell H. unfold maybeUpdateShared, maybeUpdateShared_load.
    rewrite H. reflexivity.
Qed.

Lemma scale_rounds_down_witness :
  maybeUpdateShared 0.9999995%float 1000000
  = maybeUpdateShared 0.9999999%float 1000000.
Proof.
  apply (proj2 (proj2 (scale_rounds_down 0.9999999%float))).
  vm_compute. reflexivity.
Defined.

(** An uninterrupted call on a score whose scaled value is an integer
    that fits an int32 computes the minimum of the cell and that value. *)
Theorem maybeUpdateShared_uninterrupted_min (score : Number) (cell z : Z) :
  scale score = IInt z ->
  INT32_MIN <= z ->
  cell <= INT32_MAX ->
  maybeUpdateShared score cell = Z.min cell z.
Proof.
  unfold INT32_MIN, INT32_MAX. intros Hs Hlo Hhi.
  unfold maybeUpdateShared, maybeUpdateShared_load. rewrite Hs. simpl.
  destruct (Z.ltb_spec z cell) as [Hlt|Hge]; [|lia].
  unfold Atomics_store, ToInt32_Integral, wrap32.
  rewrite Z.mod_small by lia. lia.
Qed.

Lemma maybeUpdateShared_uninterrupted_min_witness :
  maybeUpdateShared (-2)%float (-1) = Z.min (-1) (-2000000).
Proof.
  apply (maybeUpdateShared_uninterrupted_min (-2)%float (-1) (-2000000)).
  - vm_compute. reflexivity.
  - vm_compute. discriminate.
  - vm_compute. discriminate.
Defined.

(* ------------------------------------------------------------------ *)
(** ** What the coordinator resolves *)

(** C7: for [count >= 1] and a task that always returns the constant [c],
    every schedule can be continued until all workers are reported; once
    they are, the promise is fulfilled, and a fulfilled promise holds
    exactly [count] results, each equal to [c]; the promise is never
    rejected. An omitted [count] is 4. *)
Theorem parallel_constant_task
    (Value Err : Type) (fn : Task Value Err) (c : Value) (flag : bool)
    (n : nat) (evs : list Event) :
  (1 <= n)%nat ->
  (forall i sb, outcome (fn i sb) = Returns c) ->
  let st := exec fn (parallel flag (Some n)) evs in
  (exists more, all_reported (exec fn st more) = true) /\
  (all_reported st = true -> promise st = Fulfilled) /\
  (promise st = Fulfilled ->
     results st = repeat c n /\ length (results st) = n) /\
  (forall e, promise st <> Rejected e) /\
  parallel (Value:=Value) (Err:=Err) flag None = parallel flag (Some 4%nat).
Proof.
  intros Hn Hfn st.
  pose proof (exec_parallel_coordinated fn flag n evs Hn) as Hco.
  fold st in Hco.
  set (os := observations fn (parallel flag (Some n)) evs) in Hco.
  assert (Hos : Forall (eq (Returns c)) os).
  { apply observations_constant; [exact Hfn|].
    simpl. apply Forall_forall. intros w Hw.
    apply repeat_spec in Hw. subst w. exact I. }
  destruct (returned_constant c os Hos) as [Hret Hnoerr].
  assert (Hcount : count st = n).
  { destruct (exec_static fn evs (parallel flag (Some n))) as (_ & Hc & _).
    exact Hc. }
  pose proof (co_promise _ _ Hco) as Hp. rewrite Hcount in Hp.
  split; [apply can_complete|].
  split.
  { intros Hall.
    pose proof (coordinated_all_reported _ _ Hco Hall) as Hlen.
    rewrite Hp. unfold settled_as. rewrite Hnoerr, Hlen, Hcount.
    rewrite Nat.eqb_refl. reflexivity. }
  split.
  { intros Hful. rewrite Hp in Hful.
    apply settled_as_Fulfilled in Hful as [_ Hlen].
    rewrite (co_results _ _ Hco), Hret, Hlen.
    split; [reflexivity | apply repeat_length]. }
  split; [|reflexivity].
  intros e He. rewrite Hp in He.
  apply settled_as_Rejected in He. congruence.
Qed.

Lemma parallel_constant_task_witness :
  promise (exec constant_21 (parallel true (Some 3%nat)) round_robin)
  = Fulfilled.
Proof.
  refine (proj1 (proj2
    (parallel_constant_task nat nat constant_21 21%nat true 3 round_robin
       _ _)) _).
  - lia.
  - intros i sb. reflexivity.
  - vm_compute. reflexivity.
Defined.

Section NoFailure.

Context {Value Err : Type}.
Implicit Types (st : Run Value Err) (w : Worker Value Err).

Variable fn : Task Value Err.
Hypothesis fn_returns : forall i sb, exists v, outcome (fn i sb) = Returns v.

Lemma step_will_return st ev :
  Forall will_return (workers st) ->
  Forall will_return (workers (step fn st ev)).
Proof.
  intros H. destruct ev as [i|enable]; simpl; [|assumption].
  unfold step_worker.
  destruct (nth_error (workers st) i)
    as [[|sb [|score todo] res|sb sc todo res|sb [v|e]|sb]|] eqn:Hi;
    try assumption;
    try (pose proof (Forall_nth_error _ _ _ _ H Hi) as Hc; simpl in Hc);
    try (destruct (worker_sharedArray st);
           [destruct (maybeUpdateShared_load _ _)|]);
    simpl; apply Forall_replace_nth; simpl; auto.
Qed.

Lemma observations_return evs : forall st,
  Forall will_return (workers st) ->
  first_error (observations fn st evs) = None.
Proof.
  induction evs as [|ev evs IH]; intros st H; simpl; [reflexivity|].
  rewrite first_error_app, (IH _ (step_will_return st ev H)).
  destruct ev as [i|enable]; simpl; [|reflexivity].
  destruct (nth_error (workers st) i) as [[| | |sb res|]|] eqn:Hi;
    try reflexivity.
  destruct (Forall_nth_error _ _ _ _ H Hi) as [v ->]. reflexivity.
Qed.

Lemma parallel_will_return flag count :
  Forall will_return (workers (parallel flag count : Run Value Err)).
Proof.
  simpl. apply Forall_forall. intros w Hw.
  apply repeat_spec in Hw. subst w. exact I.
Qed.

End NoFailure.

(** C8: for [count >= 1], after any schedule the promise is rejected with
    [e] exactly when [e] is the first failure the main thread observed; a
    fulfilled promise means no failure was observed and holds exactly
    [count] results, those returned; every schedule can be continued until
    every worker is reported, and then each worker has been observed
    once and the promise is settled: fulfilled with the [count] returned
    values when no failure was observed (so always, when no task throws),
    rejected with the first failure otherwise; and a settled promise
    never changes again, nor does the result list of a fulfilled one. *)
Theorem parallel_failure_policy
    (Value Err : Type) (fn : Task Value Err) (flag : bool) (n : nat)
    (evs : list Event) :
  (1 <= n)%nat ->
  let st := exec fn (parallel flag (Some n)) evs in
  let os := observations fn (parallel flag (Some n)) evs in
  (forall e, first_error os = Some e <-> promise st = Rejected e) /\
  (promise st = Fulfilled ->
     first_error os = None /\ results st = returned os /\
     length (results st) = n) /\
  (all_reported st = true -> promise st <> Pending) /\
  (forall more,
     promise st <> Pending ->
     promise (exec fn st more) = promise st /\
     (promise st = Fulfilled -> results (exec fn st more) = results st)) /\
  (exists more, all_reported (exec fn st more) = true) /\
  (all_reported st = true -> length os = n) /\
  (all_reported st = true -> first_error os = None ->
     promise st = Fulfilled /\ results st = returned os /\
     length (results st) = n) /\
  ((forall i sb, exists v, outcome (fn i sb) = Returns v) ->
   all_reported st = true ->
   promise st = Fulfilled /\ results st = returned os /\
   length (results st) = n).
Proof.
  intros Hn st os.
  pose proof (exec_parallel_coordinated fn flag n evs Hn) as Hco.
  fold st os in Hco.
  assert (Hcount : count st = n).
  { destruct (exec_static fn evs (parallel flag (Some n))) as (_ & Hc & _).
    exact Hc. }
  pose proof (co_promise _ _ Hco) as Hp. rewrite Hcount in Hp.
  assert (Hdone : all_reported st = true -> first_error os = None ->
                  promise st = Fulfilled /\ results st = returned os /\
                  length (results st) = n).
  { intros Hall Hnoerr.
    pose proof (coordinated_all_reported _ _ Hco Hall) as Hlen.
    rewrite Hcount in Hlen.
    split; [|split].
    - rewrite Hp. unfold settled_as. rewrite Hnoerr, Hlen, Nat.eqb_refl.
      reflexivity.
    - exact (co_results _ _ Hco).
    - rewrite (co_results _ _ Hco), (returned_no_error _ Hnoerr). exact Hlen. }
  split.
  { intros e. rewrite Hp. symmetry. apply settled_as_Rejected. }
  split.
  { intros Hful. rewrite Hp in Hful.
    apply settled_as_Fulfilled in Hful as [Hnoerr Hlen].
    split; [exact Hnoerr|]. split; [exact (co_results _ _ Hco)|].
    rewrite (co_results _ _ Hco), (returned_no_error _ Hnoerr). exact Hlen. }
  split.
  { intros Hall Hpend.
    pose proof (coordinated_all_reported _ _ Hco Hall) as Hlen.
    rewrite Hp in Hpend. unfold settled_as in Hpend.
    rewrite Hlen, Hcount, Nat.eqb_refl in Hpend.
    destruct (first_error os); discriminate. }
  split.
  { intros more Hset.
    pose proof (exec_parallel_coordinated fn flag n (evs ++ more) Hn) as Hco'.
    rewrite exec_app, observations_app in Hco'. fold st os in Hco'.
    set (os' := observations fn st more) in Hco'.
    assert (Hcount' : count (exec fn st more) = n).
    { destruct (exec_static fn more st) as (_ & Hc & _). congruence. }
    pose proof (co_promise _ _ Hco') as Hp'. rewrite Hcount' in Hp'.
    rewrite Hp', Hp. rewrite Hp in Hset.
    unfold settled_as in *. rewrite first_error_app.
    destruct (first_error os) as [e|] eqn:He.
    - split; [reflexivity | discriminate].
    - destruct (Nat.eqb_spec (length os) n) as [Hlen|Hlen]; [|congruence].
      pose proof (coordinated_bound _ _ Hco') as Hb.
      rewrite Hcount', length_app in Hb.
      assert (Hnil : os' = [])
        by (destruct os'; simpl in Hb; [reflexivity|lia]).
      rewrite Hnil, app_nil_r, Hlen, Nat.eqb_refl.
      split; [reflexivity|]. intros _.
      rewrite (co_results _ _ Hco'), (co_results _ _ Hco), Hnil, app_nil_r.
      reflexivity. }
  split; [apply can_complete|].
  split.
  { intros Hall. rewrite <- Hcount.
    apply (coordinated_all_reported _ _ Hco Hall). }
  split; [exact Hdone|].
  intros Hfn Hall. apply Hdone; [exact Hall|].
  apply (observations_return fn Hfn), parallel_will_return.
Qed.

Lemma parallel_failure_policy_witness :
  promise (exec one_fails (parallel false (Some 3%nat)) round_robin)
  = Rejected 7%nat /\
  (promise (exec constant_21 (parallel true (Some 3%nat)) round_robin)
   = Fulfilled /\
   results (exec constant_21 (parallel true (Some 3%nat)) round_robin)
   = returned (observations constant_21 (parallel true (Some 3%nat))
                            round_robin) /\
   length (results (exec constant_21 (parallel true (Some 3%nat))
                         round_robin)) = 3%nat).
Proof.
  split.
  - refine (proj1 (proj1
      (parallel_failure_policy nat nat one_fails false 3 round_robin _)
      7%nat) _).
    + lia.
    + vm_compute. reflexivity.
  - refine (proj2 (proj2 (proj2 (proj2 (proj2 (proj2 (proj2
      (parallel_failure_policy nat nat constant_21 true 3 round_robin _)))))))
      _ _).
    + lia.
    + intros i sb. exists 21%nat. reflexivity.
    + vm_compute. reflexivity.
Defined.

(* ------------------------------------------------------------------ *)
(** ** The flag and the run *)

(** C9: [parallel] reads [QunTime.entangled] once, at launch. Calls of
    [QunTime.entangledMode] while the run is in flight change nothing the
    run owns: the run is the same, field by field, as under the schedule
    with those calls removed, so two schedules with the same worker steps
    give the same run; the snapshot stays the flag read at launch, the
    cell exists exactly when that flag was set, and every worker is wired
    to it exactly then. *)
Theorem entangled_snapshot_at_launch
    (Value Err : Type) (fn : Task Value Err) (flag : bool)
    (count : option nat) (evs : list Event) :
  let st := exec fn (parallel flag count) evs in
  run_view st = run_view (exec fn (parallel flag count) (steps_only evs)) /\
  (forall evs',
     steps_only evs' = steps_only evs ->
     run_view (exec fn (parallel flag count) evs') = run_view st) /\
  entangledEnabled st = flag /\
  (if flag then exists cell, sharedArray st = Some cell
   else sharedArray st = None) /\
  worker_sharedArray st = sharedArray st.
Proof.
  intros st.
  pose proof (exec_wired fn evs _ (parallel_wired flag count)) as Hw.
  fold st in Hw.
  assert (He : entangledEnabled st = flag).
  { destruct (exec_static fn evs (parallel flag count)) as (He & _).
    exact He. }
  split; [apply exec_view; reflexivity|].
  split.
  { intros evs' Heq.
    rewrite (exec_view fn evs' _ _ eq_refl), Heq.
    symmetry. apply exec_view. reflexivity. }
  split; [exact He|].
  split; [|apply wired_worker_sharedArray, Hw].
  unfold wired in Hw. rewrite He in Hw.
  destruct flag; [exact Hw | exact (proj1 Hw)].
Qed.

Lemma entangled_snapshot_at_launch_witness :
  run_view (exec constant_21 (parallel true (Some 3%nat))
                 (steps_only round_robin))
  = run_view (exec constant_21 (parallel true (Some 3%nat)) round_robin).
Proof.
  refine (proj1 (proj2
    (entangled_snapshot_at_launch nat nat constant_21 true (Some 3%nat)
       round_robin)) (steps_only round_robin) _).
  vm_compute. reflexivity.
Defined.

(** C10: [parallel(fn, 0)] spawns no worker, and under every schedule the
    main thread observes nothing, [completed] stays 0, [results] stays
    empty and the promise stays pending: it neither resolves with an empty
    sequence nor rejects. *)
Theorem parallel_zero_never_settles
    (Value Err : Type) (fn : Task Value Err) (flag : bool)
    (evs : list Event) :
  let st := exec fn (parallel flag (Some 0%nat)) evs in
  workers (parallel (Value:=Value) (Err:=Err) flag (Some 0%nat)) = [] /\
  workers st = [] /\
  observations fn (parallel flag (Some 0%nat)) evs = [] /\
  completed st = 0%nat /\
  results st = [] /\
  promise st = Pending.
Proof.
  intros st. split; [reflexivity|]. subst st.
  generalize (parallel (Value:=Value) (Err:=Err) flag (Some 0%nat)),
    (eq_refl : workers (parallel (Value:=Value) (Err:=Err) flag (Some 0%nat)) = []),
    (eq_refl : completed (parallel (Value:=Value) (Err:=Err) flag (Some 0%nat)) = 0%nat),
    (eq_refl : results (parallel (Value:=Value) (Err:=Err) flag (Some 0%nat)) = []),
    (eq_refl : promise (parallel (Value:=Value) (Err:=Err) flag (Some 0%nat)) = Pending).
  induction evs as [|ev evs IH]; intros st Hw Hc Hr Hp; [simpl; auto|].
  rewrite exec_cons. cbn [observations].
  assert (Hstep : step fn st ev = st \/
                  exists enable, step fn st ev = entangledMode enable st).
  { destruct ev as [i|enable]; simpl; [left | right; eauto].
    unfold step_worker. rewrite Hw. destruct i; reflexivity. }
  assert (Hobs : observed st ev = []).
  { destruct ev as [i|enable]; simpl; [|reflexivity].
    rewrite Hw. destruct i; reflexivity. }
  rewrite Hobs. cbn [app].
  destruct Hstep as [->|[enable ->]]; apply IH; assumption.
Qed.

(* ------------------------------------------------------------------ *)
(** ** NanoTensor: shapes and round trips *)

Section NanoTensorFacts.

Import NanoTensor.

Lemma threshold_Number_of_BinChar c :
  threshold (Number_of_BinChar c) = read_back c.
Proof. destruct c; reflexivity. Qed.

Lemma read_back_digit l : map read_back (map digit l) = l.
Proof.
  induction l as [|[|] l IH]; simpl; rewrite ?IH; reflexivity.
Qed.

Lemma length_pad_slice {A : Type} n (fill : A) s :
  length (slice_to n (padEnd n fill s)) = n.
Proof.
  unfold slice_to, padEnd.
  rewrite length_firstn, length_app, repeat_length. lia.
Qed.

Lemma pad_slice_exact {A : Type} n (fill : A) s :
  length s = n -> slice_to n (padEnd n fill s) = s.
Proof.
  intros H. unfold slice_to, padEnd.
  rewrite H, Nat.sub_diag. simpl. rewrite app_nil_r.
  apply firstn_all2. lia.
Qed.

Lemma length_padStart {A : Type} n (fill : A) s :
  length (padStart n fill s) = Nat.max n (length s).
Proof. unfold padStart. rewrite length_app, repeat_length. lia. Qed.

Lemma length_slice_last_padStart {A : Type} (fill : A) s :
  length (slice_last BITS_PER_CHAR (padStart BITS_PER_CHAR fill s))
  = BITS_PER_CHAR.
Proof.
  unfold slice_last. rewrite length_skipn, length_padStart. lia.
Qed.

(** *** The value of a string of binary digits *)

Lemma parseInt2_from l : forall acc,
  fold_left (fun (a : N) (d : bool) => (2 * a + (if d then 1 else 0))%N) l acc
  = (acc * 2 ^ N.of_nat (length l) + parseInt2 l)%N.
Proof.
  unfold parseInt2.
  induction l as [|d l IH]; intros acc; cbn [fold_left length].
  - change (N.of_nat 0) with 0%N. rewrite N.pow_0_r. lia.
  - rewrite (IH (2 * acc + (if d then 1 else 0))%N),
            (IH (2 * 0 + (if d then 1 else 0))%N).
    rewrite Nat2N.inj_succ, N.pow_succ_r'. ring.
Qed.

Lemma parseInt2_app l1 l2 :
  parseInt2 (l1 ++ l2)
  = (parseInt2 l1 * 2 ^ N.of_nat (length l2) + parseInt2 l2)%N.
Proof.
  unfold parseInt2 at 1. rewrite fold_left_app.
  fold (parseInt2 l1). apply parseInt2_from.
Qed.

Lemma parseInt2_bound l : (parseInt2 l < 2 ^ N.of_nat (length l))%N.
Proof.
  induction l as [|d l IH] using rev_ind; [vm_compute; reflexivity|].
  rewrite parseInt2_app, length_app. simpl length.
  replace (N.of_nat (length l + 1)) with (N.succ (N.of_nat (length l))) by lia.
  rewrite N.pow_succ_r'. change (2 ^ N.of_nat 1)%N with 2%N.
  assert (parseInt2 [d] <= 1)%N by (destruct d; vm_compute; discriminate).
  lia.
Qed.

Lemma parseInt2_zeros k : parseInt2 (repeat false k) = 0%N.
Proof.
  induction k as [|k IH]; [reflexivity|].
  change (repeat false (S k)) with ([false] ++ repeat false k).
  rewrite parseInt2_app, IH. reflexivity.
Qed.

Lemma parseInt2_binary_digits p : parseInt2 (binary_digits p) = N.pos p.
Proof.
  induction p as [q IH|q IH|]; simpl binary_digits;
    rewrite ?parseInt2_app, ?IH; simpl; try reflexivity; lia.
Qed.

Lemma parseInt2_skipn k l :
  (k <= length l)%nat ->
  parseInt2 (skipn k l)
  = (parseInt2 l mod 2 ^ N.of_nat (length l - k))%N.
Proof.
  intros Hk.
  rewrite <- (firstn_skipn k l) at 2.
  rewrite parseInt2_app, length_skipn.
  pose proof (parseInt2_bound (skipn k l)) as Hb.
  rewrite length_skipn in Hb.
  rewrite N.add_comm, N.Div0.mod_add.
  symmetry. apply N.mod_small, Hb.
Qed.

Lemma length_binary_digits p k :
  (N.pos p < 2 ^ N.of_nat k)%N -> (length (binary_digits p) <= k)%nat.
Proof.
  revert k. induction p as [q IH|q IH|]; intros k Hk; simpl binary_digits;
    rewrite ?length_app; simpl length.
  - destruct k as [|k]; [simpl in Hk; lia|].
    rewrite Nat2N.inj_succ, N.pow_succ_r' in Hk.
    assert (Hq : (N.pos q < 2 ^ N.of_nat k)%N) by lia.
    apply IH in Hq. lia.
  - destruct k as [|k]; [simpl in Hk; lia|].
    rewrite Nat2N.inj_succ, N.pow_succ_r' in Hk.
    assert (Hq : (N.pos q < 2 ^ N.of_nat k)%N) by lia.
    apply IH in Hq. lia.
  - destruct k as [|k]; [simpl in Hk; lia | lia].
Qed.

(** *** Pieces of 16 characters *)

Lemma match_chunks_aux_fuel {A : Type} : forall fuel1 fuel2 (s : list A),
  (length s <= fuel1)%nat -> (length s <= fuel2)%nat ->
  match_chunks_aux fuel1 s = match_chunks_aux fuel2 s.
Proof.
  induction fuel1 as [|f1 IH]; intros [|f2] [|a s] H1 H2;
    cbn [match_chunks_aux]; try reflexivity;
    try (cbn [length] in *; lia).
  f_equal. apply IH; rewrite length_skipn; unfold BITS_PER_CHAR;
    cbn [length] in *; lia.
Qed.

Lemma match_chunks_cons {A : Type} (b rest : list A) :
  length b = BITS_PER_CHAR ->
  match_chunks (b ++ rest) = b :: match_chunks rest.
Proof.
  intros Hb. unfold match_chunks.
  rewrite length_app, Hb.
  change (BITS_PER_CHAR + length rest)%nat with (S (15 + length rest)).
  cbn [match_chunks_aux].
  destruct (b ++ rest) as [|a s] eqn:Hs.
  { destruct b; [discriminate Hb | discriminate Hs]. }
  rewrite <- Hs, <- Hb.
  rewrite firstn_app, Nat.sub_diag, firstn_all, firstn_O, app_nil_r.
  rewrite skipn_app, Nat.sub_diag, skipn_all. cbn [app skipn].
  f_equal. apply match_chunks_aux_fuel; lia.
Qed.

Lemma match_chunks_blocks {A : Type} (bs : list (list A)) rest :
  Forall (fun b => length b = BITS_PER_CHAR) bs ->
  match_chunks (concat bs ++ rest) = bs ++ match_chunks rest.
Proof.
  induction 1 as [|b bs Hb Hbs IH]; [reflexivity|].
  cbn [concat]. rewrite <- app_assoc, match_chunks_cons by assumption.
  rewrite IH. reflexivity.
Qed.

Lemma length_concat_blocks {A : Type} (bs : list (list A)) :
  Forall (fun b => length b = BITS_PER_CHAR) bs ->
  length (concat bs) = (BITS_PER_CHAR * length bs)%nat.
Proof.
  induction 1 as [|b bs Hb Hbs IH]; [reflexivity|].
  cbn [concat length]. rewrite length_app, Hb, IH. lia.
Qed.

Lemma firstn_concat_blocks {A : Type} (bs : list (list A)) : forall k,
  Forall (fun b => length b = BITS_PER_CHAR) bs ->
  firstn (BITS_PER_CHAR * k) (concat bs) = concat (firstn k bs).
Proof.
  intros k H. revert k.
  induction H as [|b bs Hb Hbs IH]; intros k.
  - rewrite !firstn_nil. reflexivity.
  - destruct k as [|k]; [rewrite Nat.mul_0_r; reflexivity|].
    cbn [concat firstn]. rewrite firstn_app, Hb.
    replace (BITS_PER_CHAR * S k - BITS_PER_CHAR)%nat
      with (BITS_PER_CHAR * k)%nat by lia.
    rewrite IH, firstn_all2 by lia. reflexivity.
Qed.

(** *** One number of an array *)

Lemma parseInt2_toString2 v :
  parseInt2 (map read_back (toString2 v)) = Z.abs_N v.
Proof.
  destruct v as [|p|p]; [reflexivity| |]; simpl toString2.
  - rewrite read_back_digit. apply parseInt2_binary_digits.
  - cbn [map read_back]. rewrite read_back_digit.
    change (false :: binary_digits p) with ([false] ++ binary_digits p).
    rewrite parseInt2_app, parseInt2_binary_digits. reflexivity.
Qed.

Lemma length_encoded_value v : length (encoded_value v) = BITS_PER_CHAR.
Proof. apply length_slice_last_padStart. Qed.

Lemma encoded_value_read_back v :
  parseInt2 (map read_back (encoded_value v)) = (Z.abs_N v mod 65536)%N.
Proof.
  unfold encoded_value, slice_last.
  rewrite <- skipn_map, length_padStart.
  unfold padStart. rewrite map_app, map_repeat. cbn [read_back].
  set (ts := map read_back (toString2 v)).
  replace (length (toString2 v)) with (length ts)
    by (unfold ts; apply length_map).
  rewrite parseInt2_skipn
    by (rewrite length_app, repeat_length; lia).
  rewrite length_app, repeat_length.
  replace (BITS_PER_CHAR - length ts + length ts
           - (Nat.max BITS_PER_CHAR (length ts) - BITS_PER_CHAR))%nat
    with 16%nat by (unfold BITS_PER_CHAR; lia).
  rewrite parseInt2_app, parseInt2_zeros.
  unfold ts. rewrite parseInt2_toString2. reflexivity.
Qed.

Lemma map_threshold_Number l :
  map threshold (map Number_of_BinChar l) = map read_back l.
Proof.
  rewrite map_map. apply map_ext, threshold_Number_of_BinChar.
Qed.

Lemma Forall_length_map_read_back (cbs : list (list BinChar)) :
  Forall (fun b => length b = BITS_PER_CHAR) cbs ->
  Forall (fun b => length b = BITS_PER_CHAR) (map (map read_back) cbs).
Proof.
  intros H. apply Forall_map. eapply Forall_impl; [|exact H].
  intros b Hb. rewrite length_map. exact Hb.
Qed.

(** Decoding a tensor that holds whole pieces followed by [r] zeros. *)
Lemma tensorToArray_blocks (cbs : list (list BinChar)) r L bits :
  Forall (fun b => length b = BITS_PER_CHAR) cbs ->
  default_bits bits = (BITS_PER_CHAR * length cbs + r)%nat ->
  L = length cbs \/ (r = 0%nat /\ (length cbs <= L)%nat) ->
  tensorToArray
    (mkEncoded (map Number_of_BinChar (concat cbs ++ repeat C0 r)) L) bits
  = map (fun b => parseInt2 (map read_back b)) cbs.
Proof.
  intros Hcbs Hbits HL. unfold tensorToArray. cbn [tensor length_].
  rewrite map_threshold_Number, map_app, map_repeat, concat_map.
  cbn [read_back].
  pose proof (Forall_length_map_read_back cbs Hcbs) as Hbbs.
  rewrite pad_slice_exact
    by (rewrite length_app, repeat_length, length_concat_blocks, length_map;
        [lia | exact Hbbs]).
  rewrite match_chunks_blocks by exact Hbbs.
  unfold slice_to. rewrite firstn_app, length_map.
  destruct HL as [->|[-> Hle]].
  - rewrite Nat.sub_diag, firstn_O, app_nil_r.
    rewrite firstn_all2 by (rewrite length_map; lia).
    apply map_map.
  - cbn [repeat]. change (match_chunks (@nil bool)) with (@nil (list bool)).
    rewrite firstn_nil, app_nil_r.
    rewrite firstn_all2 by (rewrite length_map; lia).
    apply map_map.
Qed.

Lemma Forall_length_encoded_value (array : list Z) :
  Forall (fun b => length b = BITS_PER_CHAR) (map encoded_value array).
Proof.
  apply Forall_map, Forall_forall. intros v _. apply length_encoded_value.
Qed.

Lemma decode_encoded_values (array : list Z) :
  map (fun b => parseInt2 (map read_back b)) (map encoded_value array)
  = map (fun v => (Z.abs_N v mod 65536)%N) array.
Proof. rewrite map_map. apply map_ext, encoded_value_read_back. Qed.

(** [tensorToArray] after [arrayToTensor], when all the values fit the
    tensor. *)
Lemma tensorToArray_arrayToTensor_fits (array : list Z) (bits : option nat) :
  (BITS_PER_CHAR * length array <= default_bits bits)%nat ->
  tensorToArray (arrayToTensor array bits) bits
  = map (fun v => (Z.abs_N v mod 65536)%N) array.
Proof.
  intros Hfit. unfold arrayToTensor.
  pose proof (Forall_length_encoded_value array) as Hcbs.
  fold encoded_value.
  change (map (fun value => encoded_value value) array)
    with (map encoded_value array).
  set (b := default_bits bits) in *.
  assert (Hlen : length (concat (map encoded_value array))
                 = (BITS_PER_CHAR * length array)%nat)
    by (rewrite length_concat_blocks, length_map; [reflexivity | exact Hcbs]).
  assert (Hbin : slice_to b (padEnd b C0 (concat (map encoded_value array)))
                 = concat (map encoded_value array)
                   ++ repeat C0 (b - BITS_PER_CHAR * length array)).
  { unfold slice_to, padEnd. rewrite Hlen.
    apply firstn_all2. rewrite length_app, repeat_length, Hlen. lia. }
  rewrite Hbin.
  rewrite tensorToArray_blocks.
  - apply decode_encoded_values.
  - exact Hcbs.
  - rewrite length_map. fold b. lia.
  - left. symmetry. apply length_map.
Qed.

Lemma Forall_firstn {A : Type} (P : A -> Prop) n : forall l,
  Forall P l -> Forall P (firstn n l).
Proof.
  induction n as [|n IH]; intros l H; [constructor|].
  destruct H as [|a l Ha Hl]; constructor; auto.
Qed.

(** [tensorToArray] after [arrayToTensor] with the default size: 16
    values at most. *)
Lemma tensorToArray_arrayToTensor_default (array : list Z) :
  tensorToArray (arrayToTensor array None) None
  = firstn MAX_CHARS (map (fun v => (Z.abs_N v mod 65536)%N) array).
Proof.
  destruct (Nat.le_gt_cases (length array) MAX_CHARS) as [Hle|Hgt].
  - rewrite tensorToArray_arrayToTensor_fits
      by (unfold default_bits, TOTAL_BITS, BITS_PER_CHAR, MAX_CHARS in *; lia).
    symmetry. apply firstn_all2. rewrite length_map. exact Hle.
  - unfold arrayToTensor.
    pose proof (Forall_length_encoded_value array) as Hcbs.
    change (map (fun value => slice_last BITS_PER_CHAR
                   (padStart BITS_PER_CHAR C0 (toString2 value))) array)
      with (map encoded_value array).
    assert (Hlen : length (concat (map encoded_value array))
                   = (BITS_PER_CHAR * length array)%nat)
      by (rewrite length_concat_blocks, length_map; [reflexivity|exact Hcbs]).
    assert (Hbin : slice_to (default_bits None)
                     (padEnd (default_bits None) C0
                        (concat (map encoded_value array)))
                   = concat (firstn MAX_CHARS (map encoded_value array))
                     ++ repeat C0 0).
    { unfold slice_to, padEnd. rewrite Hlen.
      replace (default_bits None - BITS_PER_CHAR * length array)%nat
        with 0%nat
        by (unfold default_bits, TOTAL_BITS, BITS_PER_CHAR, MAX_CHARS in *; lia).
      cbn [repeat]. rewrite !app_nil_r.
      apply firstn_concat_blocks, Hcbs. }
    rewrite Hbin.
    rewrite tensorToArray_blocks.
    + rewrite <- firstn_map, map_map. f_equal.
      apply map_ext, encoded_value_read_back.
    + apply Forall_firstn, Hcbs.
    + rewrite length_firstn, length_map.
      unfold default_bits, TOTAL_BITS, BITS_PER_CHAR, MAX_CHARS in *. lia.
    + right. split; [reflexivity|].
      rewrite length_firstn, length_map. lia.
Qed.

(** *** One character of a text *)

Lemma length_toString2_unit c :
  (c < 65536)%N -> (length (toString2 (Z.of_N c)) <= BITS_PER_CHAR)%nat.
Proof.
  intros Hc. destruct c as [|p]; simpl; [unfold BITS_PER_CHAR; lia|].
  rewrite length_map. apply length_binary_digits. exact Hc.
Qed.

Lemma length_encoded_unit c :
  (c < 65536)%N -> length (encoded_unit c) = BITS_PER_CHAR.
Proof.
  intros Hc. unfold encoded_unit. rewrite length_padStart.
  pose proof (length_toString2_unit c Hc). lia.
Qed.

Lemma encoded_unit_read_back c :
  parseInt2 (map read_back (encoded_unit c)) = c.
Proof.
  unfold encoded_unit, padStart.
  rewrite map_app, map_repeat. cbn [read_back].
  rewrite parseInt2_app, parseInt2_zeros, parseInt2_toString2.
  apply Zabs2N.id.
Qed.

Lemma toString2_unit_digits c :
  Forall (fun b => b = C0 \/ b = C1) (toString2 (Z.of_N c)).
Proof.
  destruct c as [|p]; simpl; [repeat constructor; auto|].
  apply Forall_map, Forall_forall. intros [|] _; simpl; auto.
Qed.

Lemma Array_from_units (s : JSString) :
  Forall (fun c => is_high_surrogate c = false) s ->
  Array_from s = map (fun c => [c]) s.
Proof.
  induction 1 as [|hi rest Hhi Hrest IH]; [reflexivity|].
  cbn [Array_from map]. rewrite Hhi. cbn [andb].
  destruct rest as [|lo rest']; [reflexivity|].
  rewrite IH. reflexivity.
Qed.

(** *** The text that is encoded *)

Lemma length_safeText text : length (safeText text) = MAX_CHARS.
Proof. apply length_pad_slice. Qed.

Lemma Forall_safeText (P : N -> Prop) text :
  P 32%N -> Forall P text -> Forall P (safeText text).
Proof.
  intros Hsp Htext. unfold safeText, slice_to, padEnd.
  apply Forall_firstn, Forall_app. split; [exact Htext|].
  apply Forall_forall. intros c Hc. apply repeat_spec in Hc. subst c.
  exact Hsp.
Qed.

Lemma safeText_prefix text : safeText (slice_to MAX_CHARS text) = safeText text.
Proof.
  unfold safeText, slice_to, padEnd.
  destruct (Nat.le_gt_cases (length text) MAX_CHARS) as [Hle|Hgt].
  - rewrite (firstn_all2 text) by exact Hle. reflexivity.
  - rewrite length_firstn.
    replace (MAX_CHARS - Nat.min MAX_CHARS (length text))%nat with 0%nat by lia.
    replace (MAX_CHARS - length text)%nat with 0%nat by lia.
    cbn [repeat]. rewrite !app_nil_r. apply firstn_firstn.
Qed.

Lemma trimStart_spaces k s : trimStart (repeat 32%N k ++ s) = trimStart s.
Proof. induction k as [|k IH]; [reflexivity | exact IH]. Qed.

Lemma trim_safeText text : trim (safeText text) = trim (slice_to MAX_CHARS text).
Proof.
  unfold safeText, slice_to, padEnd.
  destruct (Nat.le_gt_cases (length text) MAX_CHARS) as [Hle|Hgt].
  - rewrite !firstn_all2
      by (rewrite ?length_app, ?repeat_length; lia).
    unfold trim, trimEnd.
    rewrite rev_app_distr, rev_repeat, trimStart_spaces. reflexivity.
  - replace (MAX_CHARS - length text)%nat with 0%nat by lia.
    cbn [repeat]. rewrite app_nil_r. reflexivity.
Qed.

Lemma Forall_digits_binary text bits :
  Forall (fun b => b = C0 \/ b = C1)
    (slice_to bits
       (padEnd bits C0
          (concat (map (fun c => padStart BITS_PER_CHAR C0
                                   (toString2 (Z.of_N (charCodeAt0 c))))
                       (Array_from (safeText text)))))).
Proof.
  unfold slice_to, padEnd.
  apply Forall_firstn, Forall_app. split.
  - apply Forall_concat, Forall_map, Forall_forall. intros c _.
    unfold padStart. apply Forall_app. split.
    + apply Forall_forall. intros b Hb. apply repeat_spec in Hb. auto.
    + apply toString2_unit_digits.
  - apply Forall_forall. intros b Hb. apply repeat_spec in Hb. auto.
Qed.

End NanoTensorFacts.

(** X2: [textToTensor] always returns exactly [bits] entries (256 when
    [bits] is omitted), each of them the Number 0 or the Number 1, for
    every text, the empty one included; [arrayToTensor] returns a tensor of
    exactly [bits] entries together with the length of the array. *)
Theorem encoders_shape
    (text : NanoTensor.JSString) (array : list Z) (bits : option nat) :
  length (NanoTensor.textToTensor text bits) = NanoTensor.default_bits bits /\
  Forall (fun x => x = 0%float \/ x = 1%float)
         (NanoTensor.textToTensor text bits) /\
  length (NanoTensor.tensor (NanoTensor.arrayToTensor array bits))
  = NanoTensor.default_bits bits /\
  NanoTensor.length_ (NanoTensor.arrayToTensor array bits) = length array /\
  NanoTensor.default_bits None = 256%nat.
Proof.
  split; [|split; [|split; [|split]]].
  - unfold NanoTensor.textToTensor. rewrite length_map.
    apply length_pad_slice.
  - unfold NanoTensor.textToTensor. apply Forall_map.
    eapply Forall_impl; [|apply Forall_digits_binary].
    intros b [->| ->]; simpl; auto.
  - unfold NanoTensor.arrayToTensor. cbn [NanoTensor.tensor].
    rewrite length_map. apply length_pad_slice.
  - reflexivity.
  - reflexivity.
Qed.

(** X3: only the first 16 code units of a text reach the tensor: a text
    and its first 16 code units have the same tensor, whatever [bits] is. *)
Theorem textToTensor_ignores_tail
    (text : NanoTensor.JSString) (bits : option nat) :
  NanoTensor.textToTensor (NanoTensor.slice_to NanoTensor.MAX_CHARS text) bits
  = NanoTensor.textToTensor text bits.
Proof.
  unfold NanoTensor.textToTensor. rewrite safeText_prefix. reflexivity.
Qed.

(** X4: for a text of code units without high surrogates, decoding the
    default-size tensor of the text gives back its first 16 code units,
    trimmed: [tensorToText(textToTensor(text)) = text.slice(0, 16).trim()]. *)
Theorem tensorToText_textToTensor (text : NanoTensor.JSString) :
  Forall (fun c => (c < 65536)%N /\ NanoTensor.is_high_surrogate c = false)
         text ->
  NanoTensor.tensorToText (NanoTensor.textToTensor text None) None
  = NanoTensor.trim (NanoTensor.slice_to NanoTensor.MAX_CHARS text).
Proof.
  intros Htext.
  assert (Hsafe : Forall (fun c => (c < 65536)%N
                                   /\ NanoTensor.is_high_surrogate c = false)
                         (NanoTensor.safeText text))
    by (apply Forall_safeText; [split; reflexivity | exact Htext]).
  rewrite <- trim_safeText.
  assert (Hcbs : Forall (fun b => length b = NanoTensor.BITS_PER_CHAR)
                        (map NanoTensor.encoded_unit (NanoTensor.safeText text))).
  { apply Forall_map. eapply Forall_impl; [|exact Hsafe].
    intros c [Hc _]. apply length_encoded_unit, Hc. }
  assert (Henc : NanoTensor.textToTensor text None
                 = map NanoTensor.Number_of_BinChar
                       (concat (map NanoTensor.encoded_unit (NanoTensor.safeText text)))).
  { unfold NanoTensor.textToTensor.
    rewrite Array_from_units
      by (eapply Forall_impl; [|exact Hsafe]; intros c [_ Hc]; exact Hc).
    rewrite (map_map (fun c : N => [c])). cbn [NanoTensor.charCodeAt0 hd].
    fold NanoTensor.encoded_unit.
    change (map (fun x : N => NanoTensor.encoded_unit x)) with (map NanoTensor.encoded_unit).
    rewrite pad_slice_exact
      by (rewrite length_concat_blocks, length_map, length_safeText;
          [reflexivity | exact Hcbs]).
    reflexivity. }
  rewrite Henc. unfold NanoTensor.tensorToText.
  rewrite map_threshold_Number, concat_map.
  pose proof (Forall_length_map_read_back _ Hcbs) as Hbbs.
  rewrite pad_slice_exact
    by (rewrite length_concat_blocks, !length_map, length_safeText;
        [reflexivity | exact Hbbs]).
  rewrite <- (app_nil_r (concat _)), match_chunks_blocks by exact Hbbs.
  change (NanoTensor.match_chunks (@nil bool)) with (@nil (list bool)).
  rewrite app_nil_r, !map_map. f_equal.
  rewrite <- (map_id (NanoTensor.safeText text)) at 2.
  apply map_ext_Forall. eapply Forall_impl; [|exact Hsafe].
  intros c [Hc _]. rewrite encoded_unit_read_back.
  unfold NanoTensor.fromCharCode. apply N.mod_small, Hc.
Qed.

Lemma tensorToText_textToTensor_witness :
  NanoTensor.tensorToText
    (NanoTensor.textToTensor [32; 72; 105; 33; 32]%N None) None
  = NanoTensor.trim
      (NanoTensor.slice_to NanoTensor.MAX_CHARS [32; 72; 105; 33; 32]%N).
Proof.
  apply (tensorToText_textToTensor [32; 72; 105; 33; 32]%N).
  repeat constructor.
Defined.

(** X5: an array of at most [bits / 16] integers between 0 and 65535 is
    decoded back exactly: [tensorToArray(arrayToTensor(array, bits), bits)]
    is the array. *)
Theorem tensorToArray_arrayToTensor_exact
    (array : list Z) (bits : option nat) :
  (NanoTensor.BITS_PER_CHAR * length array
   <= NanoTensor.default_bits bits)%nat ->
  Forall (fun v => 0 <= v < 65536) array ->
  map Z.of_N
      (NanoTensor.tensorToArray (NanoTensor.arrayToTensor array bits) bits)
  = array.
Proof.
  intros Hfit Hrange.
  rewrite tensorToArray_arrayToTensor_fits by exact Hfit.
  rewrite map_map. rewrite <- (map_id array) at 2.
  apply map_ext_Forall. eapply Forall_impl; [|exact Hrange].
  intros v Hv. cbn beta in Hv |- *.
  rewrite N.mod_small by lia. lia.
Qed.

Lemma tensorToArray_arrayToTensor_exact_witness :
  map Z.of_N
      (NanoTensor.tensorToArray
         (NanoTensor.arrayToTensor [0; 5; 65535] None) None)
  = [0; 5; 65535].
Proof.
  apply (tensorToArray_arrayToTensor_exact [0; 5; 65535] None).
  - vm_compute. lia.
  - repeat constructor; lia.
Defined.

(** X6: what the default-size round trip loses: every value comes back
    as its absolute value modulo 65536 (the sign and the bits above the
    16th are dropped), and only the first 16 values come back. *)
Theorem tensorToArray_arrayToTensor_lossy (array : list Z) :
  NanoTensor.tensorToArray (NanoTensor.arrayToTensor array None) None
  = firstn NanoTensor.MAX_CHARS
           (map (fun v => (Z.abs_N v mod 65536)%N) array).
Proof. apply tensorToArray_arrayToTensor_default. Qed.

(* ------------------------------------------------------------------ *)
(** ** More on the pool *)

Section PoolMore.

Context {Value Err : Type}.
Implicit Types (st : Run Value Err) (fn : Task Value Err).

Lemma step_worker_view_only fn i st st' :
  worker_view st = worker_view st' ->
  worker_view (step_worker fn i st) = worker_view (step_worker fn i st').
Proof.
  destruct st as [f e c n ws k rs p], st' as [f' e' c' n' ws' k' rs' p'].
  unfold worker_view; simpl. intros H; injection H as -> -> ->.
  unfold step_worker, worker_sharedArray; simpl.
  destruct (nth_error ws' i)
    as [[|sb [|score todo] res|sb sc todo res|sb [v|er]|sb]|];
    simpl; try reflexivity.
  destruct e'; simpl; try reflexivity.
  destruct c'; simpl; try reflexivity.
  destruct (maybeUpdateShared_load score z); reflexivity.
Qed.

Lemma exec_worker_view fn evs : forall st st',
  worker_view st = worker_view st' ->
  worker_view (exec fn st evs) = worker_view (exec fn st' evs).
Proof.
  induction evs as [|[i|enable] evs IH]; intros st st' H; simpl.
  - assumption.
  - apply IH, step_worker_view_only, H.
  - apply IH. exact H.
Qed.

Lemma wrap32_range z : INT32_MIN <= wrap32 z <= INT32_MAX.
Proof.
  unfold wrap32, INT32_MIN, INT32_MAX.
  pose proof (Z.mod_pos_bound (z + 2 ^ 31) (2 ^ 32) eq_refl). lia.
Qed.

Lemma Atomics_store_range scaled :
  INT32_MIN <= Atomics_store scaled <= INT32_MAX.
Proof.
  destruct scaled as [| | |z]; simpl; try apply wrap32_range;
    unfold INT32_MIN, INT32_MAX; lia.
Qed.

Lemma step_cell_is_int32 fn st ev :
  cell_is_int32 st -> cell_is_int32 (step fn st ev).
Proof.
  unfold cell_is_int32. intros H.
  destruct ev as [i|enable]; simpl; [|exact H].
  unfold step_worker.
  destruct (nth_error (workers st) i)
    as [[|sb [|score todo] res|sb sc todo res|sb [v|e]|sb]|];
    try exact H;
    try (destruct (worker_sharedArray st);
           [destruct (maybeUpdateShared_load _ _)|]);
    simpl; try exact H.
  intros c Hc. injection Hc as <-. apply Atomics_store_range.
Qed.

Lemma exec_cell_is_int32 fn evs : forall st,
  cell_is_int32 st -> cell_is_int32 (exec fn st evs).
Proof.
  induction evs as [|ev evs IH]; intros st H; [exact H|].
  rewrite exec_cons. apply IH, step_cell_is_int32, H.
Qed.

Lemma parallel_cell_is_int32 flag count :
  cell_is_int32 (parallel flag count : Run Value Err).
Proof.
  unfold cell_is_int32, parallel. cbn [sharedArray].
  destruct flag; [|discriminate].
  rewrite initial_cell_eq. intros c Hc. injection Hc as <-.
  unfold INT32_MIN, INT32_MAX. lia.
Qed.

End PoolMore.

Lemma maybeUpdateShared_min (score : Number) (cell z : Z) :
  scale score = IInt z -> INT32_MIN <= z -> cell <= INT32_MAX ->
  maybeUpdateShared score cell = Z.min cell z.
Proof.
  unfold INT32_MIN, INT32_MAX. intros Hs Hlo Hhi.
  unfold maybeUpdateShared, maybeUpdateShared_load. rewrite Hs. simpl.
  destruct (Z.ltb_spec z cell) as [Hlt|Hge]; [|lia].
  unfold Atomics_store, ToInt32_Integral, wrap32.
  rewrite Z.mod_small by lia. lia.
Qed.

(** X7: for [count >= 1] and under every schedule, [results] holds the
    returned values in the order in which the main thread observed the
    workers end (not in spawn order), [completed] is its length, and no
    more outcomes are observed than there are workers. *)
Theorem results_in_completion_order
    (Value Err : Type) (fn : Task Value Err) (flag : bool) (n : nat)
    (evs : list Event) :
  (1 <= n)%nat ->
  let st := exec fn (parallel flag (Some n)) evs in
  let os := observations fn (parallel flag (Some n)) evs in
  results st = returned os /\
  completed st = length (results st) /\
  length os = count_reported (workers st) /\
  (completed st <= length os <= n)%nat.
Proof.
  intros Hn st os.
  pose proof (exec_parallel_coordinated fn flag n evs Hn) as Hco.
  fold st os in Hco.
  pose proof (coordinated_bound _ _ Hco) as Hb.
  destruct (exec_static fn evs (parallel flag (Some n))) as (_ & Hc & _).
  fold st in Hc. simpl in Hc. rewrite Hc in Hb.
  destruct Hco as [Hw Hcomp Hres Hrep Hp].
  split; [exact Hres|]. split; [rewrite Hres; exact Hcomp|].
  split; [exact Hrep|].
  split; [|exact Hb].
  rewrite Hcomp. clear. induction os as [|[v|e] os IH]; simpl; lia.
Qed.

Lemma results_in_completion_order_witness :
  results (exec two_publishers (parallel false (Some 2%nat))
                (map Step [1; 0; 1; 0; 1; 0; 1; 0]%nat))
  = [1%nat; 0%nat].
Proof.
  rewrite (proj1 (results_in_completion_order nat nat two_publishers false 2
                    (map Step [1; 0; 1; 0; 1; 0; 1; 0]%nat) ltac:(lia))).
  vm_compute. reflexivity.
Defined.

(** X8: the workers and the register never depend on the promise, on
    [results] or on [completed]: two runs that agree on the snapshot, the
    cell and the workers' states agree on them after every schedule. In
    particular a rejected promise stops no worker, and every run can
    still be continued until every worker is reported. *)
Theorem workers_ignore_the_promise
    (Value Err : Type) (fn : Task Value Err) (st st' : Run Value Err)
    (evs : list Event) :
  worker_view st = worker_view st' ->
  worker_view (exec fn st evs) = worker_view (exec fn st' evs) /\
  exists more, all_reported (exec fn (exec fn st evs) more) = true.
Proof.
  intros H. split; [apply exec_worker_view, H | apply can_complete].
Qed.

Lemma workers_ignore_the_promise_witness :
  worker_view (exec two_publishers (parallel true (Some 2%nat)) racy_schedule)
  = worker_view (exec two_publishers
                      (on_error nat nat 7%nat (parallel true (Some 2%nat)))
                      racy_schedule).
Proof.
  refine (proj1 (workers_ignore_the_promise nat nat two_publishers
                   (parallel true (Some 2%nat))
                   (on_error nat nat 7%nat (parallel true (Some 2%nat)))
                   racy_schedule _)).
  reflexivity.
Defined.

(** X9: whatever the tasks publish and however the workers interleave,
    the cell of an entangled run always holds a value between -2^31 and
    2^31 - 1. *)
Theorem register_stays_int32
    (Value Err : Type) (fn : Task Value Err) (flag : bool)
    (count : option nat) (evs : list Event) (c : Z) :
  sharedArray (exec fn (parallel flag count) evs) = Some c ->
  INT32_MIN <= c <= INT32_MAX.
Proof.
  apply (exec_cell_is_int32 fn evs _ (parallel_cell_is_int32 flag count)).
Qed.

Lemma register_stays_int32_witness :
  INT32_MIN <= -2000000 <= INT32_MAX.
Proof.
  apply (register_stays_int32 nat nat two_publishers true (Some 2%nat)
           racy_schedule (-2000000)).
  vm_compute. reflexivity.
Defined.

(** X10: calls of [maybeUpdateShared] made one after the other, none
    interrupted, with scaled scores that are integers not below -2^31,
    leave the cell at the minimum of its old value and all the scaled
    scores, whatever the order of the calls. *)
Theorem serial_publishes_minimum
    (scores : list Number) (zs : list Z) (cell : Z) :
  Forall2 (fun s z => scale s = IInt z /\ INT32_MIN <= z) scores zs ->
  cell <= INT32_MAX ->
  fold_left (fun c s => maybeUpdateShared s c) scores cell
  = fold_left Z.min zs cell.
Proof.
  intros H. revert cell.
  induction H as [|s z scores zs [Hs Hz] H IH]; intros cell Hcell;
    [reflexivity|].
  cbn [fold_left].
  rewrite (maybeUpdateShared_min s cell z Hs Hz Hcell).
  apply IH. lia.
Qed.

Lemma serial_publishes_minimum_witness :
  fold_left (fun c s => maybeUpdateShared s c) [(-2)%float; (-3)%float] (-1)
  = fold_left Z.min [-2000000; -3000000] (-1).
Proof.
  apply (serial_publishes_minimum [(-2)%float; (-3)%float]
           [-2000000; -3000000] (-1)).
  - repeat constructor; vm_compute; try reflexivity; discriminate.
  - vm_compute. discriminate.
Defined.

(** X11: in a run launched with the flag clear, [maybeUpdateShared] is a
    no-op under every schedule: no cell exists, no worker is wired to one,
    and no worker ever reaches [Atomics.store]. *)
Theorem not_entangled_never_stores
    (Value Err : Type) (fn : Task Value Err) (count : option nat)
    (evs : list Event) :
  let st := exec fn (parallel false count) evs in
  sharedArray st = None /\
  worker_sharedArray st = None /\
  forallb not_Storing (workers st) = true.
Proof.
  intros st.
  pose proof (exec_wired fn evs _ (parallel_wired false count)) as Hw.
  fold st in Hw.
  destruct (exec_static fn evs (parallel false count)) as (He & _).
  fold st in He. simpl in He.
  unfold wired in Hw. rewrite He in Hw. destruct Hw as [Hc Hs].
  split; [exact Hc|]. split; [|exact Hs].
  unfold worker_sharedArray. rewrite He. reflexivity.
Qed.

(* ------------------------------------------------------------------ *)
(** ** DeepLearn: batches and the replay memory *)

Section DeepLearnFacts.

Import DeepLearn.

Context {A : Type}.

Lemma batchData_loop_spec (data : list A) (batchSize : nat) :
  (1 <= batchSize)%nat ->
  forall fuel i,
    (1 <= fuel)%nat ->
    (length data < fuel + i)%nat ->
    exists batches,
      batchData_loop fuel data i batchSize = Some batches /\
      concat batches = skipn i data /\
      Forall (fun b => (1 <= length b <= batchSize)%nat) batches /\
      Forall (fun b => length b = batchSize) (removelast batches).
Proof.
  intros Hbs. induction fuel as [|fuel IH]; intros i Hpos Hfuel; [lia|].
  - cbn [batchData_loop].
    destruct (Nat.ltb_spec i (length data)) as [Hlt|Hge].
    + destruct (IH (i + batchSize)%nat) as (rest & Hrest & Hcat & Hlen & Hfull);
        [lia|lia|].
      rewrite Hrest. cbn [option_map].
      exists (firstn batchSize (skipn i data) :: rest).
      split; [reflexivity|]. split; [|split].
      * cbn [concat]. rewrite Hcat.
        rewrite (Nat.add_comm i batchSize), <- skipn_skipn.
        apply firstn_skipn.
      * constructor; [|exact Hlen].
        rewrite length_firstn, length_skipn. lia.
      * destruct rest as [|b rest']; [constructor|].
        change (removelast (?x :: b :: rest'))
          with (x :: removelast (b :: rest')).
        constructor; [|exact Hfull].
        rewrite length_firstn, length_skipn.
        assert (Hne : skipn (i + batchSize) data <> []).
        { rewrite <- Hcat. inversion Hlen as [|b0 r0 Hb0 _]; subst.
          destruct b; [simpl in Hb0; lia | discriminate]. }
        destruct (Nat.le_gt_cases (length data) (i + batchSize)) as [Hle|Hgt].
        -- exfalso. apply Hne, skipn_all2, Hle.
        -- lia.
    + exists []. split; [reflexivity|]. split; [|split; constructor].
      symmetry. apply skipn_all2, Hge.
Qed.

Lemma batchData_loop_stuck (data : list A) : forall fuel i,
  (i < length data)%nat -> batchData_loop fuel data i 0 = None.
Proof.
  induction fuel as [|fuel IH]; intros i Hi; [reflexivity|].
  cbn [batchData_loop].
  destruct (Nat.ltb_spec i (length data)) as [_|Hge]; [|lia].
  rewrite Nat.add_0_r, IH by exact Hi. reflexivity.
Qed.

Lemma remember_window (maxMemory : nat) (memory : list A) (e : A) :
  (length memory <= maxMemory)%nat ->
  remember maxMemory memory e
  = skipn (length (memory ++ [e]) - maxMemory) (memory ++ [e]).
Proof.
  intros Hlen. unfold remember. rewrite length_app. cbn [length].
  destruct (Nat.ltb_spec maxMemory (length memory + 1)) as [Hlt|Hge].
  - replace (length memory + 1 - maxMemory)%nat with 1%nat by lia.
    destruct (memory ++ [e]); reflexivity.
  - replace (length memory + 1 - maxMemory)%nat with 0%nat by lia.
    reflexivity.
Qed.

Lemma remember_all_window (maxMemory : nat) (es : list A) :
  forall memory,
    (length memory <= maxMemory)%nat ->
    fold_left (remember maxMemory) es memory
    = skipn (length (memory ++ es) - maxMemory) (memory ++ es).
Proof.
  induction es as [|e es IH]; intros memory Hlen.
  - cbn [fold_left]. rewrite app_nil_r.
    replace (length memory - maxMemory)%nat with 0%nat by lia. reflexivity.
  - cbn [fold_left].
    rewrite (remember_window maxMemory memory e Hlen).
    set (d := (length (memory ++ [e]) - maxMemory)%nat).
    assert (Hd : (d <= length (memory ++ [e]))%nat) by (unfold d; lia).
    rewrite IH by (rewrite length_skipn; unfold d; lia).
    rewrite length_app, length_skipn.
    replace (skipn d (memory ++ [e]) ++ es)
      with (skipn d ((memory ++ [e]) ++ es))
      by (rewrite skipn_app;
          replace (d - length (memory ++ [e]))%nat with 0%nat by lia;
          reflexivity).
    rewrite skipn_skipn, <- app_assoc. cbn [app].
    f_equal. unfold d.
    rewrite !length_app. cbn [length]. rewrite length_app in Hd.
    cbn [length] in Hd. unfold d in Hd. rewrite length_app in Hd.
    cbn [length] in Hd. lia.
Qed.

End DeepLearnFacts.

(** X12: for a batch size of at least 1, [#batchData] ends and cuts the
    data into consecutive batches: their concatenation is the data, no
    batch is empty or longer than the batch size, and every batch except
    the last has exactly the batch size. The batch size the constructor
    sets, [options.batchSize || 32], is always at least 1; with a batch
    size of 0 the loop over non-empty data never ends. *)
Theorem batchData_partitions
    (A : Type) (data : list A) (batchSize : nat) :
  (1 <= batchSize)%nat ->
  (exists batches,
     DeepLearn.batchData data batchSize = Some batches /\
     concat batches = data /\
     Forall (fun b => (1 <= length b <= batchSize)%nat) batches /\
     Forall (fun b => length b = batchSize) (removelast batches)) /\
  (forall option, (1 <= DeepLearn.batchSize_of option)%nat) /\
  (forall fuel, data <> [] ->
                DeepLearn.batchData_loop fuel data 0 0 = None).
Proof.
  intros Hbs. split; [|split].
  - destruct (batchData_loop_spec data batchSize Hbs (S (length data)) 0)
      as (batches & H1 & H2 & H3 & H4); [lia|lia|].
    exists batches. repeat split; assumption.
  - intros [[|n]|]; unfold DeepLearn.batchSize_of, DeepLearn.or_default; lia.
  - intros fuel Hne. apply batchData_loop_stuck.
    destruct data; [contradiction | simpl; lia].
Qed.

Lemma batchData_partitions_witness :
  exists batches,
    DeepLearn.batchData [1; 2; 3; 4; 5; 6; 7]%nat 3 = Some batches /\
    concat batches = [1; 2; 3; 4; 5; 6; 7]%nat /\
    Forall (fun b => (1 <= length b <= 3)%nat) batches /\
    Forall (fun b => length b = 3%nat) (removelast batches).
Proof.
  refine (proj1 (batchData_partitions nat [1; 2; 3; 4; 5; 6; 7]%nat 3 _)).
  lia.
Defined.

(** X13: the replay memory is a sliding window: starting from a memory
    of at most [maxMemory] experiences, after [remember] has stored the
    experiences [es] in order, the memory holds exactly the last
    [maxMemory] of all of them, oldest first, and so never more than
    [maxMemory]. *)
Theorem remember_keeps_last
    (E : Type) (maxMemory : nat) (memory es : list E) :
  (length memory <= maxMemory)%nat ->
  fold_left (DeepLearn.remember maxMemory) es memory
  = skipn (length (memory ++ es) - maxMemory) (memory ++ es) /\
  (length (fold_left (DeepLearn.remember maxMemory) es memory)
   <= maxMemory)%nat.
Proof.
  intros Hlen.
  pose proof (remember_all_window maxMemory es memory Hlen) as H.
  split; [exact H|].
  rewrite H, length_skipn. lia.
Qed.

Lemma remember_keeps_last_witness :
  fold_left (DeepLearn.remember 2) [1; 2; 3; 4]%nat []
  = skipn (length ([] ++ [1; 2; 3; 4]%nat) - 2) ([] ++ [1; 2; 3; 4]%nat).
Proof.
  refine (proj1 (remember_keeps_last nat 2 [] [1; 2; 3; 4]%nat _)).
  simpl. lia.
Defined.

(* ------------------------------------------------------------------ *)
(** ** Morse code: there and back *)

Section MorseFacts.

Import Encrypt.

Lemma string_eqb_eq a : forall b, string_eqb a b = true <-> a = b.
Proof.
  induction a as [|x a IH]; intros [|y b]; simpl; split; intros H;
    try reflexivity; try discriminate.
  - apply andb_true_iff in H as [Hx Ha].
    apply N.eqb_eq in Hx. apply IH in Ha. congruence.
  - injection H as -> ->. rewrite N.eqb_refl. apply IH. reflexivity.
Qed.

(** The table, checked entry by entry: every code is made of dots and
    dashes, is not empty, and is the code of its key only. *)
Lemma pattle_checked :
  forallb (fun kv =>
             forallb dot_or_dash (snd kv)
             && negb (string_eqb (snd kv) [])
             && match find_key pattle (snd kv) with
                | Some k => (k =? fst kv)%N
                | None => false
                end) pattle = true.
Proof. vm_compute. reflexivity. Qed.

Lemma lookup_In table : forall c code,
  lookup table c = Some code -> In (c, code) table.
Proof.
  induction table as [|[k v] table IH]; intros c code H; simpl in H;
    [discriminate|].
  destruct (N.eqb_spec k c) as [->|Hne].
  - injection H as ->. left. reflexivity.
  - right. apply IH, H.
Qed.

Lemma lookup_facts c code :
  lookup pattle c = Some code ->
  forallb dot_or_dash code = true /\ code <> [] /\
  find_key pattle code = Some c.
Proof.
  intros H. apply lookup_In in H.
  pose proof pattle_checked as Hall.
  rewrite forallb_forall in Hall. apply Hall in H. cbn [fst snd] in H.
  apply andb_true_iff in H as [H H3].
  apply andb_true_iff in H as [H1 H2].
  split; [exact H1|]. split.
  - intros ->. discriminate H2.
  - destruct (find_key pattle code) as [k|]; [|discriminate].
    apply N.eqb_eq in H3. congruence.
Qed.

Lemma find_key_empty : find_key pattle [] = None.
Proof. vm_compute. reflexivity. Qed.

Lemma token_no_space c : forallb dot_or_dash (token c) = true.
Proof.
  unfold token. destruct (lookup pattle c) as [code|] eqn:H; [|reflexivity].
  apply (lookup_facts c code H).
Qed.

Lemma dot_or_dash_not_space c : dot_or_dash c = true -> (c =? 32)%N = false.
Proof.
  unfold dot_or_dash. intros H. apply orb_true_iff in H as [H|H];
    apply N.eqb_eq in H; subst c; reflexivity.
Qed.

Lemma dot_or_dash_not_whitespace c :
  dot_or_dash c = true -> NanoTensor.is_whitespace c = false.
Proof.
  unfold dot_or_dash. intros H. apply orb_true_iff in H as [H|H];
    apply N.eqb_eq in H; subst c; reflexivity.
Qed.

(** *** Splitting at the spaces *)

Lemma split_space_piece t :
  forallb dot_or_dash t = true -> split_space t = [t].
Proof.
  induction t as [|c t IH]; intros H; [reflexivity|].
  cbn [forallb] in H. apply andb_true_iff in H as [Hc Ht].
  cbn [split_space]. rewrite (dot_or_dash_not_space c Hc), (IH Ht).
  reflexivity.
Qed.

Lemma split_space_app t rest :
  forallb dot_or_dash t = true ->
  split_space (t ++ 32%N :: rest) = t :: split_space rest.
Proof.
  induction t as [|c t IH]; intros H; [reflexivity|].
  cbn [forallb] in H. apply andb_true_iff in H as [Hc Ht].
  cbn [app split_space]. rewrite (dot_or_dash_not_space c Hc), (IH Ht).
  reflexivity.
Qed.

Lemma split_space_join ts :
  ts <> [] ->
  Forall (fun t => forallb dot_or_dash t = true) ts ->
  split_space (join_space ts) = ts.
Proof.
  intros Hne H. induction H as [|t ts Ht Hts IH]; [contradiction|].
  destruct ts as [|t' ts'].
  - apply split_space_piece, Ht.
  - change (join_space (t :: t' :: ts'))
      with (t ++ 32%N :: join_space (t' :: ts')).
    rewrite split_space_app by exact Ht.
    rewrite IH by discriminate. reflexivity.
Qed.

Lemma concat_with_spaces ts :
  ts <> [] ->
  concat (map (fun t => t ++ [32%N]) ts) = join_space ts ++ [32%N].
Proof.
  intros Hne. induction ts as [|t ts IH]; [contradiction|].
  destruct ts as [|t' ts'].
  - simpl. rewrite app_nil_r. reflexivity.
  - change (join_space (t :: t' :: ts'))
      with (t ++ 32%N :: join_space (t' :: ts')).
    cbn [map concat] in *. rewrite IH by discriminate.
    rewrite <- !app_assoc. reflexivity.
Qed.

(** *** Trimming *)

Lemma trimStart_id s :
  NanoTensor.is_whitespace (hd 32%N s) = false -> NanoTensor.trimStart s = s.
Proof.
  destruct s as [|c s]; [reflexivity|]. cbn [hd NanoTensor.trimStart].
  intros ->. reflexivity.
Qed.

Lemma trimEnd_space s :
  NanoTensor.trimEnd (s ++ [32%N]) = NanoTensor.trimEnd s.
Proof.
  unfold NanoTensor.trimEnd. rewrite rev_app_distr. reflexivity.
Qed.

Lemma trimEnd_id s :
  NanoTensor.is_whitespace (last s 32%N) = false -> NanoTensor.trimEnd s = s.
Proof.
  intros H. unfold NanoTensor.trimEnd.
  destruct (exists_last (l := s)) as (s0 & x & ->).
  { intros ->. discriminate H. }
  rewrite last_last in H.
  rewrite rev_app_distr. cbn [rev app NanoTensor.trimStart]. rewrite H.
  cbn [rev]. rewrite rev_involutive. reflexivity.
Qed.

Lemma hd_join_space t ts d :
  t <> [] -> hd d (join_space (t :: ts)) = hd d t.
Proof.
  intros Ht. destruct t as [|c t]; [contradiction|].
  destruct ts; reflexivity.
Qed.

Lemma join_space_nonempty ts :
  last ts [] <> [] -> join_space ts <> [].
Proof.
  destruct ts as [|t [|t' ts']]; intros H; [contradiction | exact H |].
  change (join_space (t :: t' :: ts'))
    with (t ++ 32%N :: join_space (t' :: ts')).
  intros Hnil. apply app_eq_nil in Hnil as [_ Hnil]. discriminate Hnil.
Qed.

Lemma last_app_nonempty {A : Type} (a b : list A) d :
  b <> [] -> last (a ++ b) d = last b d.
Proof.
  intros Hb. induction a as [|x a IH]; [reflexivity|].
  cbn [app]. destruct (a ++ b) eqn:E.
  - apply app_eq_nil in E as [_ E]. contradiction.
  - exact IH.
Qed.

Lemma last_join_space ts d :
  last ts [] <> [] -> last (join_space ts) d = last (last ts []) d.
Proof.
  induction ts as [|t ts IH]; intros H; [contradiction|].
  destruct ts as [|t' ts']; [reflexivity|].
  change (join_space (t :: t' :: ts'))
    with (t ++ 32%N :: join_space (t' :: ts')).
  change (last (t :: t' :: ts') []) with (last (t' :: ts') []) in *.
  rewrite last_app_nonempty by discriminate.
  pose proof (join_space_nonempty _ H) as Hne.
  rewrite <- (IH H).
  destruct (join_space (t' :: ts')); [contradiction | reflexivity].
Qed.

(** *** One character *)

Lemma token_key c :
  is_key c = true ->
  token c <> [] /\ find_key pattle (token c) = Some c.
Proof.
  unfold is_key, token.
  destruct (lookup pattle c) as [code|] eqn:H; [|discriminate].
  intros _. destruct (lookup_facts c code H) as (_ & Hne & Hfind). auto.
Qed.

Lemma decode_token c :
  is_key c = true \/ c = 32%N ->
  match find_key pattle (token c) with
  | Some char => [char]
  | None => [32%N]
  end = [c].
Proof.
  intros [Hk| ->].
  - destruct (token_key c Hk) as [_ ->]. reflexivity.
  - vm_compute. reflexivity.
Qed.

Lemma ends_of_piece t d :
  forallb dot_or_dash t = true -> t <> [] ->
  dot_or_dash (hd d t) = true /\ dot_or_dash (last t d) = true.
Proof.
  intros Hall Hne. rewrite forallb_forall in Hall. split; apply Hall.
  - destruct t; [contradiction | left; reflexivity].
  - destruct (exists_last Hne) as (t0 & x & ->).
    rewrite last_last. apply in_or_app. right. left. reflexivity.
Qed.

Lemma last_map_nonempty {A B : Type} (f : A -> B) (l : list A) d d' :
  l <> [] -> last (map f l) d' = f (last l d).
Proof.
  intros Hne. induction l as [|x l IH]; [contradiction|].
  destruct l as [|y l]; [reflexivity|].
  change (last (map f (x :: y :: l)) d') with (last (map f (y :: l)) d').
  change (last (x :: y :: l) d) with (last (y :: l) d).
  apply IH. discriminate.
Qed.

(** The round trip on a text that is already in upper case. *)
Lemma decode_encode_upper (u : JSString) :
  Forall (fun c => is_key c = true \/ c = 32%N) u ->
  is_key (hd 32%N u) = true ->
  is_key (last u 32%N) = true ->
  NanoTensor.trim (concat (map (fun c => token c ++ [32%N]) u))
  = join_space (map token u) /\
  decode (join_space (map token u)) = u.
Proof.
  intros Hall Hhd Hlast.
  assert (Hne : u <> []) by (intros ->; discriminate Hhd).
  set (ts := map token u).
  assert (Hts : ts <> [])
    by (unfold ts; destruct u; [contradiction | discriminate]).
  assert (Hdd : Forall (fun t => forallb dot_or_dash t = true) ts)
    by (unfold ts; apply Forall_map, Forall_forall; intros c _;
        apply token_no_space).
  (* the first and the last character of the joined pieces *)
  assert (Hfirst : NanoTensor.is_whitespace (hd 32%N (join_space ts)) = false).
  { unfold ts. destruct u as [|c0 u']; [contradiction|].
    cbn [hd] in Hhd. destruct (token_key c0 Hhd) as [Hc0 _].
    cbn [map]. rewrite hd_join_space by exact Hc0.
    apply dot_or_dash_not_whitespace.
    apply (ends_of_piece _ _ (token_no_space c0) Hc0). }
  assert (Hend : NanoTensor.is_whitespace (last (join_space ts) 32%N) = false).
  { assert (Hl : last ts [] = token (last u 32%N))
      by (unfold ts; apply last_map_nonempty, Hne).
    destruct (token_key _ Hlast) as [Hc _].
    assert (Hlne : last ts [] <> []) by (rewrite Hl; exact Hc).
    rewrite (last_join_space ts 32%N Hlne).
    unfold JSString in Hl |- *. rewrite Hl.
    apply dot_or_dash_not_whitespace.
    apply (ends_of_piece _ _ (token_no_space _) Hc). }
  assert (Htrim : NanoTensor.trim (join_space ts) = join_space ts).
  { unfold NanoTensor.trim.
    rewrite trimEnd_id by exact Hend. apply trimStart_id, Hfirst. }
  split.
  - replace (map (fun c => token c ++ [32%N]) u)
      with (map (fun t => t ++ [32%N]) ts)
      by (unfold ts; rewrite map_map; reflexivity).
    rewrite concat_with_spaces by exact Hts.
    unfold NanoTensor.trim. rewrite trimEnd_space.
    exact Htrim.
  - unfold decode. rewrite Htrim, split_space_join by assumption.
    unfold ts. rewrite map_map.
    clear - Hall. induction Hall as [|c u Hc Hu IH]; [reflexivity|].
    cbn [map concat]. rewrite (decode_token c Hc), IH. reflexivity.
Qed.

Lemma encode_pieces (text : JSString) :
  encode text
  = NanoTensor.trim
      (concat (map (fun c => token c ++ [32%N]) (toUpperCase text))).
Proof.
  unfold encode. do 2 f_equal. apply map_ext. intros c. unfold token.
  destruct (lookup pattle c); reflexivity.
Qed.

End MorseFacts.

(** X14: Morse code round trip. For a text whose characters, once in
    upper case, are keys of the table or spaces, and whose first and last
    characters are keys, decoding the encoding gives the text in upper
    case: [morse(morse(text), true) = text.toUpperCase()]. The empty text
    does not come back: its encoding is empty and decodes to one space. *)
Theorem morse_round_trip (text : Encrypt.JSString) :
  Forall (fun c => Encrypt.is_key (Encrypt.toUpperCase_unit c) = true
                   \/ c = 32%N) text ->
  Encrypt.is_key (Encrypt.toUpperCase_unit (hd 32%N text)) = true ->
  Encrypt.is_key (Encrypt.toUpperCase_unit (last text 32%N)) = true ->
  Encrypt.morse (Encrypt.morse text None) (Some true)
  = Encrypt.toUpperCase text /\
  Encrypt.morse (Encrypt.morse [] None) (Some true) = [32%N].
Proof.
  intros Hall Hhd Hlast. split; [|vm_compute; reflexivity].
  assert (Hne : text <> []) by (intros ->; discriminate Hhd).
  unfold Encrypt.morse. cbn iota.
  rewrite encode_pieces.
  destruct (decode_encode_upper (Encrypt.toUpperCase text)) as [Henc Hdec].
  - unfold Encrypt.toUpperCase. apply Forall_map.
    eapply Forall_impl; [|exact Hall].
    intros c [Hc| ->]; [left; exact Hc | right; reflexivity].
  - unfold Encrypt.toUpperCase.
    destruct text as [|c text']; [contradiction | exact Hhd].
  - unfold Encrypt.toUpperCase.
    rewrite (last_map_nonempty _ _ 32%N 32%N Hne). exact Hlast.
  - rewrite Henc. exact Hdec.
Qed.

Lemma morse_round_trip_witness :
  Encrypt.morse (Encrypt.morse [83; 111; 115; 32; 33]%N None) (Some true)
  = Encrypt.toUpperCase [83; 111; 115; 32; 33]%N.
Proof.
  refine (proj1 (morse_round_trip [83; 111; 115; 32; 33]%N _ _ _)).
  - repeat (apply Forall_cons;
              [first [left; vm_compute; reflexivity | right; reflexivity]|]).
    apply Forall_nil.
  - vm_compute. reflexivity.
  - vm_compute. reflexivity.
Defined.
